(** * Sudoku solver (src/src/sudoku.cpp): validity check, row-major
    backtracking, MRV cell selection and MRV backtracking.

    The board is the [int **BOARD] of the source: nine rows of nine [int]
    cells, read as [BOARD[r][c]] and written in place.  It is embedded as a
    list of rows, each a list of [Z]; the in-place writes become explicit
    state passing (every solver returns the board it leaves behind).

    [int] is embedded as [Z]: the only arithmetic of the source is [r + 1],
    [c + 1], [k++], [options++] and [3 * (r / 3)], all on values between 0
    and 9, so no 32-bit wrap-around can occur.  Reading or writing outside
    the 9x9 board is undefined behaviour in C++; the embedding reads 0 and
    writes nothing there; the solvers started on a well-formed board at
    cursor (0,0) stay inside the board, so this convention is never used
    by them. *)

From Stdlib Require Import ZArith Lia List Permutation.
From stdpp Require Import base list numbers.

Local Open Scope Z_scope.

(** ** Data model *)

Abbreviation Board := (list (list Z)).

(** [BOARD[r][c]] *)
Definition get (b : Board) (r c : Z) : Z :=
  match b !! Z.to_nat r with
  | Some row => match row !! Z.to_nat c with
                | Some v => v
                | None => 0
                end
  | None => 0
  end.

(** [BOARD[r][c] = v;] *)
Definition set (b : Board) (r c v : Z) : Board :=
  alter (λ row, <[Z.to_nat c := v]> row) (Z.to_nat r) b.

(** Nine rows of nine cells. *)
Definition wf (b : Board) : Prop :=
  length b = 9%nat ∧ Forall (λ row, length row = 9%nat) b.

Definition wfb (b : Board) : bool :=
  (length b =? 9)%nat && forallb (λ row, (length row =? 9)%nat) b.

Definition in_range (r c : Z) : Prop := 0 ≤ r < 9 ∧ 0 ≤ c < 9.

(** [INT_MAX] of <climits>, for a 32-bit [int]. *)
Definition INT_MAX : Z := 2147483647.

(** ** isValid (sudoku.cpp, lines 21-45)

    The two [for] loops only read the board and leave through
    [return false] at the first hit, so each is an [existsb] over its index
    range.  [r / 3] is C++ integer division, which truncates: [Z.quot]. *)
Definition isValid (b : Board) (r c k : Z) : bool :=
  if existsb (λ i, (k =? get b r i) || (k =? get b i c)) (seqZ 0 9)
  then false
  else
    let startRow := 3 * (r ÷ 3) in
    let startCol := 3 * (c ÷ 3) in
    if existsb (λ i, existsb (λ j, k =? get b i j) (seqZ startCol 3))
               (seqZ startRow 3)
    then false
    else true.

(** ** The digit loop shared by both solvers

    [for (k = 1; k <= 9; k++) if (isValid(BOARD, r, c, k))
       { BOARD[r][c] = k; if (<recursive call>) return true; BOARD[r][c] = 0; }
     return false;]

    [rec] is the recursive call; [None] means that the call ran out of
    fuel, i.e. needed a deeper call stack than the fuel allows. *)
Fixpoint try_digits (rec : Board → option (bool * Board)) (r c : Z)
    (ks : list Z) (b : Board) : option (bool * Board) :=
  match ks with
  | [] => Some (false, b)
  | k :: ks' =>
      if isValid b r c k then
        match rec (set b r c k) with
        | None => None
        | Some (true, b') => Some (true, b')
        | Some (false, b') => try_digits rec r c ks' (set b' r c 0)
        end
      else try_digits rec r c ks' b
  end.

(** The digits [1 .. 9] tried by both solvers, in ascending order. *)
Definition digits : list Z := seqZ 1 9.

(** ** solveBoard (sudoku.cpp, lines 47-79)

    [fuel] bounds the number of nested activations: a call with fuel [n]
    may have at most [n] frames of [solveBoard] on the stack, itself
    included. *)
Fixpoint solveBoard (fuel : nat) (b : Board) (r c : Z)
    : option (bool * Board) :=
  match fuel with
  | O => None
  | S fuel' =>
      if r =? 9 then Some (true, b)
      else if c =? 9 then solveBoard fuel' b (r + 1) 0
      else if negb (get b r c =? 0) then solveBoard fuel' b r (c + 1)
      else try_digits (λ b', solveBoard fuel' b' r (c + 1)) r c digits b
  end.

(** ** findNextCell (sudoku.cpp, lines 81-116) *)

(** The inner loop [for (k = 0; k < 9; k++) if (isValid(...)) options++;] *)
Definition countOptions (b : Board) (r c : Z) : Z :=
  foldl (λ options k, if isValid b r c k then options + 1 else options)
        0 (seqZ 0 9).

(** A loop either leaves the function with a value or goes on with the
    loop state. *)
Inductive loop_result (R S : Type) : Type :=
  | Return (v : R)
  | Continue (s : S).
Arguments Return {R S} v.
Arguments Continue {R S} s.

(** Loop state of the scan: [(minOptions, bestRow, bestCol)]. *)
Abbreviation scan_state := (Z * Z * Z)%type.

(** The body of the column loop at cell [(r, c)]. *)
Definition scan_cell (b : Board) (r c : Z) (st : scan_state)
    : loop_result (Z * Z * Z) scan_state :=
  let '(minOptions, bestRow, bestCol) := st in
  if get b r c =? 0 then
    let options := countOptions b r c in
    if options <? minOptions then
      if options =? 1 then Return (r, c, options)
      else Continue (options, r, c)
    else Continue st
  else Continue st.

(** [for (c = ...; c < 9; c++)] over the remaining columns [cs]. *)
Fixpoint scan_cols (b : Board) (r : Z) (cs : list Z) (st : scan_state)
    : loop_result (Z * Z * Z) scan_state :=
  match cs with
  | [] => Continue st
  | c :: cs' =>
      match scan_cell b r c st with
      | Return v => Return v
      | Continue st' => scan_cols b r cs' st'
      end
  end.

(** [for (r = ...; r < 9; r++)] over the remaining rows [rs]. *)
Fixpoint scan_rows (b : Board) (rs : list Z) (st : scan_state)
    : loop_result (Z * Z * Z) scan_state :=
  match rs with
  | [] => Continue st
  | r :: rs' =>
      match scan_cols b r (seqZ 0 9) st with
      | Return v => Return v
      | Continue st' => scan_rows b rs' st'
      end
  end.

Definition findNextCell (b : Board) : Z * Z * Z :=
  match scan_rows b (seqZ 0 9) (INT_MAX, -1, -1) with
  | Return v => v
  | Continue (minOptions, bestRow, bestCol) =>
      if (bestRow =? -1) && (bestCol =? -1) then (-1, -1, 0)
      else (bestRow, bestCol, minOptions)
  end.

(** ** solveBoardEfficient (sudoku.cpp, lines 118-138) *)
Fixpoint solveBoardEfficient (fuel : nat) (b : Board)
    : option (bool * Board) :=
  match fuel with
  | O => None
  | S fuel' =>
      let '(row, col, options) := findNextCell b in
      if (row =? -1) && (col =? -1) then Some (true, b)
      else try_digits (λ b', solveBoardEfficient fuel' b') row col digits b
  end.

(** ** solve (sudoku.cpp, lines 140-144) *)
Definition solve (fuel : nat) (b : Board) (efficient : bool)
    : option (bool * Board) :=
  if efficient then solveBoardEfficient fuel b else solveBoard fuel b 0 0.

(** ** Specification vocabulary *)

(** The cells of row [r], of column [c], and of the 3x3 block whose top-left
    corner is [(br, bc)], as lists of values. *)
Definition row (b : Board) (r : Z) : list Z :=
  map (λ j, get b r j) (seqZ 0 9).

Definition col (b : Board) (c : Z) : list Z :=
  map (λ i, get b i c) (seqZ 0 9).

Definition block (b : Board) (br bc : Z) : list Z :=
  flat_map (λ i, map (λ j, get b i j) (seqZ bc 3)) (seqZ br 3).

(** A unit (row, column or block) contains each digit 1-9 exactly once. *)
Definition each_once (l : list Z) : Prop :=
  ∀ d, 1 ≤ d ≤ 9 → count_occ Z.eq_dec l d = 1%nat.

Definition each_onceb (l : list Z) : bool :=
  forallb (λ d, (count_occ Z.eq_dec l d =? 1)%nat) digits.

(** A solved grid: every row, column and block contains each digit once. *)
Definition solved (b : Board) : Prop :=
  (∀ i, 0 ≤ i < 9 → each_once (row b i) ∧ each_once (col b i)) ∧
  (∀ br bc, 0 ≤ br < 3 → 0 ≤ bc < 3 → each_once (block b (3 * br) (3 * bc))).

Definition solvedb (b : Board) : bool :=
  forallb (λ i, each_onceb (row b i) && each_onceb (col b i)) (seqZ 0 9) &&
  forallb (λ br, forallb (λ bc, each_onceb (block b (3 * br) (3 * bc)))
                         (seqZ 0 3)) (seqZ 0 3).

(** Every cell that is filled in [b] holds the same value in [b']. *)
Definition keeps_givens (b b' : Board) : Prop :=
  ∀ i j, in_range i j → get b i j ≠ 0 → get b' i j = get b i j.

(** [s] is a valid completion of [b]. *)
Definition completion (b s : Board) : Prop :=
  wf s ∧ solved s ∧ keeps_givens b s.

Definition solvable (b : Board) : Prop := ∃ s, completion b s.

(** Cell [(i, j)] shares a row, a column or a block with cell [(r, c)]. *)
Definition peer (r c i j : Z) : Prop :=
  i = r ∨ j = c ∨ (i ÷ 3 = r ÷ 3 ∧ j ÷ 3 = c ÷ 3).

(** No digit is repeated among the filled cells of a row, column or block. *)
Definition no_conflict (b : Board) : Prop :=
  ∀ i j i' j', in_range i j → in_range i' j' → (i, j) ≠ (i', j') →
    peer i j i' j' → get b i j ≠ 0 → get b i j ≠ get b i' j'.

Definition values_ok (b : Board) : Prop :=
  ∀ i j, in_range i j → 0 ≤ get b i j ≤ 9.

Definition values_okb (b : Board) : bool :=
  forallb (λ i, forallb (λ j, (0 <=? get b i j) && (get b i j <=? 9))
                        (seqZ 0 9)) (seqZ 0 9).

Definition no_conflictb (b : Board) : bool :=
  forallb (λ i, forallb (λ j,
    (get b i j =? 0) ||
    forallb (λ i', forallb (λ j',
      ((i =? i') && (j =? j')) ||
      negb ((i' =? i) || (j' =? j) ||
            ((i' ÷ 3 =? i ÷ 3) && (j' ÷ 3 =? j ÷ 3))) ||
      negb (get b i j =? get b i' j')) (seqZ 0 9)) (seqZ 0 9))
    (seqZ 0 9)) (seqZ 0 9).

Definition full (b : Board) : Prop :=
  ∀ i j, in_range i j → get b i j ≠ 0.

Definition fullb (b : Board) : bool :=
  forallb (λ i, forallb (λ j, negb (get b i j =? 0)) (seqZ 0 9)) (seqZ 0 9).

Definition empty_cell (b : Board) (r c : Z) : Prop :=
  in_range r c ∧ get b r c = 0.

(** The number of digits 1-8 that [isValid] accepts at [(r, c)]. *)
Definition legal_count_1_8 (b : Board) (r c : Z) : Z :=
  Z.of_nat (length (filter (λ k, isValid b r c k = true) (seqZ 1 8))).

(** The number of digits 1-9 that [isValid] accepts at [(r, c)]. *)
Definition legal_count (b : Board) (r c : Z) : Z :=
  Z.of_nat (length (filter (λ k, isValid b r c k = true) (seqZ 1 9))).

(** The number of empty cells of the board. *)
Definition count_empty (b : Board) : nat :=
  length (filter (λ v, v = 0) (concat b)).

(** The number of activations [solveBoard] needs from cursor [(r, c)]:
    one per remaining cell, one per remaining end of row, one for [r == 9]. *)
Definition frames (r c : Z) : nat :=
  if r =? 9 then 1%nat else Z.to_nat (10 * (9 - r) - c + 1).

(** Invariant of the scan of [findNextCell] once the cells in [P] have been
    visited: either no empty cell was seen and the state is the initial one,
    or the state names an empty cell with its option count, which is not 1
    (the loop would have returned) and is minimal among the visited empty
    cells. *)
Definition scan_inv (b : Board) (P : Z → Z → Prop) (st : scan_state) : Prop :=
  let '(m, br, bc) := st in
  (br = -1 ∧ bc = -1 ∧ m = INT_MAX ∧
   ∀ i j, in_range i j → P i j → get b i j ≠ 0) ∨
  (empty_cell b br bc ∧ m = countOptions b br bc ∧ m ≠ 1 ∧
   ∀ i j, in_range i j → P i j → get b i j = 0 → m ≤ countOptions b i j).

(** What the early [return] of the scan hands back. *)
Definition scan_ret (b : Board) (v : Z * Z * Z) : Prop :=
  let '(r, c, n) := v in
  empty_cell b r c ∧ n = countOptions b r c ∧ n = 1.

(** The state the solvers maintain: a 9x9 board of values 0-9 whose filled
    cells do not clash. *)
Definition good (b : Board) : Prop :=
  wf b ∧ values_ok b ∧ no_conflict b.

Definition goodb (b : Board) : bool :=
  wfb b && values_okb b && no_conflictb b.

(** The nine cells of a unit, indexed by [k] in 0-8: row [i], column [j],
    and the block with top-left corner [(br, bc)]. *)
Definition row_cell (i k : Z) : Z * Z := (i, k).
Definition col_cell (j k : Z) : Z * Z := (k, j).
Definition block_cell (br bc k : Z) : Z * Z := (k ÷ 3 + br, Z.rem k 3 + bc).

Definition unit_vals (b : Board) (u : Z → Z * Z) : list Z :=
  map (λ k, get b (u k).1 (u k).2) (seqZ 0 9).

(** ** Example boards *)

(** A solved grid. *)
Definition solved_board : Board :=
  [[5;3;4;6;7;8;9;1;2];
   [6;7;2;1;9;5;3;4;8];
   [1;9;8;3;4;2;5;6;7];
   [8;5;9;7;6;1;4;2;3];
   [4;2;6;8;5;3;7;9;1];
   [7;1;3;9;2;4;8;5;6];
   [9;6;1;5;3;7;2;8;4];
   [2;8;7;4;1;9;6;3;5];
   [3;4;5;2;8;6;1;7;9]].

(** A puzzle whose solution is [solved_board]. *)
Definition puzzle : Board :=
  [[5;3;0;0;7;0;0;0;0];
   [6;0;0;1;9;5;0;0;0];
   [0;9;8;0;0;0;0;6;0];
   [8;0;0;0;6;0;0;0;3];
   [4;0;0;8;0;3;0;0;1];
   [7;0;0;0;2;0;0;0;6];
   [0;6;0;0;0;0;2;8;0];
   [0;0;0;4;1;9;0;0;5];
   [0;0;0;0;8;0;0;7;9]].

(** A solved grid with 7 in the top-left corner, and the same grid with
    that corner left empty. *)
Definition solved7 : Board :=
  [[7;3;4;6;5;8;9;1;2];
   [6;5;2;1;9;7;3;4;8];
   [1;9;8;3;4;2;7;6;5];
   [8;7;9;5;6;1;4;2;3];
   [4;2;6;8;7;3;5;9;1];
   [5;1;3;9;2;4;8;7;6];
   [9;6;1;7;3;5;2;8;4];
   [2;8;5;4;1;9;6;3;7];
   [3;4;7;2;8;6;1;5;9]].

Definition corner_missing : Board := set solved7 0 0 0.

(** [solved7] with the 9 of its first row left empty: the only digit that
    fits there is 9. *)
Definition nine_missing : Board := set solved7 0 6 0.

(** A completely filled grid that repeats 3 in its first row. *)
Definition repeated_board : Board := set solved7 0 0 3.

(** A grid whose cell (0,0) accepts no digit (1-8 are in its row, 9 in its
    column) while cell (8,8) accepts exactly one (1). *)
Definition stuck_board : Board :=
  [[0;1;2;3;4;5;6;7;8];
   [9;0;0;0;0;0;0;0;0];
   [0;0;0;0;0;0;0;0;0];
   [0;0;0;0;0;0;0;0;0];
   [0;0;0;0;0;0;0;0;0];
   [0;0;0;0;0;0;0;0;0];
   [0;0;0;0;0;0;0;0;0];
   [0;0;0;0;0;0;0;0;0];
   [2;3;4;5;6;7;8;9;0]].

(** The all-empty grid. *)
Definition empty_board : Board := replicate 9 (replicate 9 0).

(** ** Vocabulary for grids whose given cells may clash *)

(** Cell [(i, j)] of [s] holds a digit 1-9 that none of its peers holds. *)
Definition clean_cell (s : Board) (i j : Z) : Prop :=
  1 ≤ get s i j ≤ 9 ∧
  ∀ i' j', in_range i' j' → (i', j') ≠ (i, j) → peer i j i' j' →
    get s i' j' ≠ get s i j.

(** [s] is [b] with some of its empty cells filled, each of them cleanly;
    the given cells are kept and not examined. *)
Definition placed_ok (b s : Board) : Prop :=
  wf s ∧ keeps_givens b s ∧
  ∀ i j, in_range i j → get b i j = 0 → get s i j ≠ 0 → clean_cell s i j.

(** [s] keeps the given cells of [b] and fills cleanly every empty cell of
    [b] at row-major position [p] or later. *)
Definition fills_from (p : Z) (b s : Board) : Prop :=
  wf s ∧ keeps_givens b s ∧
  ∀ i j, in_range i j → p ≤ 9 * i + j → get b i j = 0 → clean_cell s i j.

(** Row-major comparison of two boards: equal, or at the first cell where
    they differ [s1] holds the smaller value. *)
Definition lex_le (s1 s2 : Board) : Prop :=
  (∀ i j, in_range i j → get s1 i j = get s2 i j) ∨
  ∃ i j, in_range i j ∧ get s1 i j < get s2 i j ∧
         ∀ i' j', in_range i' j' → 9 * i' + j' < 9 * i + j →
                  get s1 i' j' = get s2 i' j'.

(** Invariant of the scan of [findNextCell] when the cells at row-major
    positions below [p] have been visited; it also records that the cells
    visited before the best one have strictly more options. *)
Definition scan_pos_inv (b : Board) (p : Z) (st : scan_state) : Prop :=
  let '(m, br, bc) := st in
  (br = -1 ∧ bc = -1 ∧ m = INT_MAX ∧
   ∀ i j, in_range i j → 9 * i + j < p → get b i j ≠ 0) ∨
  (empty_cell b br bc ∧ 9 * br + bc < p ∧ m = countOptions b br bc ∧ m ≠ 1 ∧
   ∀ i j, in_range i j → 9 * i + j < p → get b i j = 0 →
     m ≤ countOptions b i j ∧
     (9 * i + j < 9 * br + bc → m < countOptions b i j)).

Definition scan_pos_ret (b : Board) (v : Z * Z * Z) : Prop :=
  let '(r, c, n) := v in
  empty_cell b r c ∧ n = countOptions b r c ∧ n = 1 ∧
  ∀ i j, empty_cell b i j → 9 * i + j < 9 * r + c → 1 < countOptions b i j.

Definition keeps_givensb (b b' : Board) : bool :=
  forallb (λ i, forallb (λ j, (get b i j =? 0) || (get b' i j =? get b i j))
                        (seqZ 0 9)) (seqZ 0 9).

(** [repeated_board] with its last cell left empty: a grid whose given
    cells clash (3 twice in the first row) and that has one empty cell. *)
Definition clash_board : Board := set repeated_board 8 8 0.

(** The early exit of the scan, seen from the cells it went past: a visited
    empty cell with exactly one option is only passed when the best cell,
    before it, has no option. *)
Definition scan_exit_inv (b : Board) (p : Z) (st : scan_state) : Prop :=
  let '(m, br, bc) := st in
  ∀ i j, in_range i j → 9 * i + j < p → get b i j = 0 →
    countOptions b i j = 1 → m = 0 ∧ 9 * br + bc < 9 * i + j.

(** A grid in which cell (0,8) is the first empty cell with a single legal
    digit (8), two empty cells with more options come before it, and cell
    (8,1), after it, accepts no digit. *)
Definition early_exit_board : Board :=
  [[0;0;3;4;5;6;7;9;0];
   [0;0;0;0;0;0;1;2;0];
   [0;0;0;0;0;0;0;0;0];
   [0;0;0;0;0;0;0;0;0];
   [0;0;0;0;0;0;0;0;0];
   [0;0;0;0;0;0;0;0;0];
   [0;0;0;0;0;0;0;0;0];
   [0;9;0;0;0;0;0;0;0];
   [8;0;1;2;3;4;5;6;7]].

(** ** Reading and writing cells *)

Lemma wf_lookup_row (b : Board) (r : Z) :
  wf b → 0 ≤ r < 9 → ∃ rw, b !! Z.to_nat r = Some rw ∧ length rw = 9%nat.
Proof.
  intros [Hl Hr] Hrng.
  destruct (lookup_lt_is_Some_2 b (Z.to_nat r)) as [rw Hrw]; [lia|].
  exists rw. split; [done|].
  by apply (Forall_lookup_1 _ _ _ _ Hr Hrw).
Qed.

Lemma wf_lookup_cell (b : Board) (r c : Z) :
  wf b → in_range r c →
  ∃ rw, b !! Z.to_nat r = Some rw ∧ rw !! Z.to_nat c = Some (get b r c).
Proof.
  intros Hwf [Hr Hc].
  destruct (wf_lookup_row b r Hwf Hr) as (rw & Hrw & Hlen).
  exists rw. split; [done|].
  unfold get. rewrite Hrw.
  destruct (lookup_lt_is_Some_2 rw (Z.to_nat c)) as [v Hv]; [lia|].
  by rewrite Hv.
Qed.

Lemma wf_set (b : Board) (r c v : Z) : wf b → wf (set b r c v).
Proof.
  intros [Hl Hr]. split.
  - unfold set. by rewrite length_alter.
  - unfold set. apply Forall_alter; [done|].
    intros rw _ Hrw. by rewrite length_insert.
Qed.

Lemma get_set_eq (b : Board) (r c v : Z) :
  wf b → in_range r c → get (set b r c v) r c = v.
Proof.
  intros Hwf Hrc.
  destruct (wf_lookup_cell b r c Hwf Hrc) as (rw & Hrw & Hv).
  unfold get at 1, set. rewrite list_lookup_alter_eq, Hrw. simpl.
  rewrite list_lookup_insert_eq; [done|].
  by apply lookup_lt_Some in Hv.
Qed.

Lemma get_set_ne (b : Board) (r c v i j : Z) :
  0 ≤ r → 0 ≤ c → 0 ≤ i → 0 ≤ j → (i, j) ≠ (r, c) →
  get (set b r c v) i j = get b i j.
Proof.
  intros Hr Hc Hi Hj Hne. unfold get, set.
  destruct (decide (i = r)) as [->|Hir].
  - rewrite list_lookup_alter_eq.
    destruct (b !! Z.to_nat r) as [rw|]; simpl; [|done].
    rewrite list_lookup_insert_ne; [done|].
    intros Heq. apply Hne. f_equal. lia.
  - rewrite list_lookup_alter_ne; [done|]. lia.
Qed.

Lemma get_set (b : Board) (r c v i j : Z) :
  wf b → in_range r c → in_range i j →
  get (set b r c v) i j = if decide ((i, j) = (r, c)) then v else get b i j.
Proof.
  intros Hwf Hrc Hij. destruct (decide _) as [Heq|Hne].
  - injection Heq as -> ->. by apply get_set_eq.
  - destruct Hrc, Hij. apply get_set_ne; lia || done.
Qed.

(** Two well-formed boards with the same cells are the same board. *)
Lemma board_ext (b1 b2 : Board) :
  wf b1 → wf b2 → (∀ i j, in_range i j → get b1 i j = get b2 i j) → b1 = b2.
Proof.
  intros Hwf1 Hwf2 Hget.
  apply list_eq_same_length with 9%nat; [apply Hwf2 | apply Hwf1 |].
  intros i rw1 rw2 Hi H1 H2. 
  assert (Hl1 : length rw1 = 9%nat)
    by apply (Forall_lookup_1 _ _ _ _ (proj2 Hwf1) H1).
  assert (Hl2 : length rw2 = 9%nat)
    by apply (Forall_lookup_1 _ _ _ _ (proj2 Hwf2) H2).
  apply list_eq_same_length with 9%nat; [done..|].
  intros j v1 v2 Hj Hv1 Hv2.
  specialize (Hget (Z.of_nat i) (Z.of_nat j)).
  unfold get in Hget. rewrite !Nat2Z.id, H1, H2, Hv1, Hv2 in Hget.
  apply Hget. unfold in_range. lia.
Qed.

(** Writing a digit into an empty cell and then 0 again restores the board:
    the backtracking step [BOARD[r][c] = 0]. *)
Lemma set_undo (b : Board) (r c k : Z) :
  wf b → in_range r c → get b r c = 0 → set (set b r c k) r c 0 = b.
Proof.
  intros Hwf Hrc H0.
  apply board_ext; [by do 2 apply wf_set | done |].
  intros i j Hij.
  rewrite get_set; [|by apply wf_set|done..].
  destruct (decide _) as [Heq|Hne].
  - injection Heq as -> ->. done.
  - destruct Hrc, Hij. apply get_set_ne; lia || done.
Qed.

Lemma wfb_spec (b : Board) : wfb b = true ↔ wf b.
Proof.
  unfold wfb, wf. rewrite andb_true_iff, Nat.eqb_eq, forallb_forall.
  rewrite List.Forall_forall.
  split; intros [H1 H2]; (split; [done|]); intros x Hx.
  - apply Nat.eqb_eq. by apply H2.
  - apply Nat.eqb_eq. by apply H2.
Qed.

(** ** isValid *)

Lemma existsb_seqZ (f : Z → bool) (m n : Z) :
  existsb f (seqZ m n) = true ↔ ∃ i, m ≤ i < m + n ∧ f i = true.
Proof.
  rewrite existsb_exists. split; intros (i & Hi & Hf); exists i.
  - apply list_elem_of_In, elem_of_seqZ in Hi. done.
  - split; [|done]. by apply list_elem_of_In, elem_of_seqZ.
Qed.

Lemma in_seqZ (m n i : Z) : In i (seqZ m n) ↔ m ≤ i < m + n.
Proof. by rewrite <- list_elem_of_In, elem_of_seqZ. Qed.

(** What the two loops of [isValid] look for. *)
Lemma isValid_false_iff (b : Board) (r c k : Z) :
  isValid b r c k = false ↔
  (∃ i, 0 ≤ i < 9 ∧ (get b r i = k ∨ get b i c = k)) ∨
  (∃ i j, 3 * (r ÷ 3) ≤ i < 3 * (r ÷ 3) + 3 ∧
          3 * (c ÷ 3) ≤ j < 3 * (c ÷ 3) + 3 ∧ get b i j = k).
Proof.
  unfold isValid.
  destruct (existsb _ (seqZ 0 9)) eqn:E1.
  - split; [intros _|done]. left.
    apply existsb_seqZ in E1 as (i & Hi & Hf).
    exists i. split; [lia|].
    apply orb_true_iff in Hf as [Hf|Hf]; apply Z.eqb_eq in Hf; auto.
  - destruct (existsb _ (seqZ (3 * (r ÷ 3)) 3)) eqn:E2.
    + split; [intros _|done]. right.
      apply existsb_seqZ in E2 as (i & Hi & Hf).
      apply existsb_seqZ in Hf as (j & Hj & Hf).
      apply Z.eqb_eq in Hf. eauto.
    + split; [done|]. intros [(i & Hi & Hf)|(i & j & Hi & Hj & Hf)].
      * assert (existsb (λ i, (k =? get b r i) || (k =? get b i c))
                        (seqZ 0 9) = true) as E; [|congruence].
        apply existsb_seqZ. exists i. split; [lia|].
        apply orb_true_iff. destruct Hf as [Hf|Hf]; [left|right]; lia.
      * assert (existsb (λ i, existsb (λ j, k =? get b i j)
                  (seqZ (3 * (c ÷ 3)) 3)) (seqZ (3 * (r ÷ 3)) 3) = true)
          as E; [|congruence].
        apply existsb_seqZ. exists i. split; [done|].
        apply existsb_seqZ. exists j. split; [done|]. lia.
Qed.

Lemma block_origin (r i : Z) :
  0 ≤ r < 9 → 0 ≤ i < 9 →
  (3 * (r ÷ 3) ≤ i < 3 * (r ÷ 3) + 3 ↔ i ÷ 3 = r ÷ 3).
Proof.
  intros Hr Hi. rewrite !Z.quot_div_nonneg by lia.
  split; intros H; Z.div_mod_to_equations; lia.
Qed.

Lemma block_origin_range (r i : Z) :
  0 ≤ r < 9 → 3 * (r ÷ 3) ≤ i < 3 * (r ÷ 3) + 3 → 0 ≤ i < 9.
Proof.
  intros Hr. rewrite !Z.quot_div_nonneg by lia.
  intros H; Z.div_mod_to_equations; lia.
Qed.

(** [isValid] accepts [k] exactly when no peer of [(r, c)], the cell itself
    included, holds [k]. *)
Lemma isValid_true_iff (b : Board) (r c k : Z) :
  in_range r c →
  isValid b r c k = true ↔
  ∀ i j, in_range i j → peer r c i j → get b i j ≠ k.
Proof.
  intros [Hr Hc]. rewrite <- not_false_iff_true, isValid_false_iff. split.
  - intros Hno i j [Hi Hj] Hp Hk. apply Hno.
    destruct Hp as [->|[->|[Hp1 Hp2]]].
    + left. exists j. auto.
    + left. exists i. auto.
    + right. exists i, j. rewrite !block_origin by done. done.
  - intros Hall [(i & Hi & [Hk|Hk])|(i & j & Hi & Hj & Hk)].
    + apply (Hall r i); [done| |done]. by left.
    + apply (Hall i c); [done| |done]. right; by left.
    + assert (0 ≤ i < 9) by eauto using block_origin_range.
      assert (0 ≤ j < 9) by eauto using block_origin_range.
      apply (Hall i j); [done| |done].
      right; right. by rewrite <- !block_origin.
Qed.

Lemma in_row (b : Board) (r k : Z) :
  In k (row b r) ↔ ∃ j, 0 ≤ j < 9 ∧ get b r j = k.
Proof.
  unfold row. rewrite in_map_iff. split.
  - intros (j & Hj & Hin). apply in_seqZ in Hin. exists j. split; [lia|done].
  - intros (j & Hj & Hk). exists j. split; [done|]. apply in_seqZ. lia.
Qed.

Lemma in_col (b : Board) (c k : Z) :
  In k (col b c) ↔ ∃ i, 0 ≤ i < 9 ∧ get b i c = k.
Proof.
  unfold col. rewrite in_map_iff. split.
  - intros (j & Hj & Hin). apply in_seqZ in Hin. exists j. split; [lia|done].
  - intros (j & Hj & Hk). exists j. split; [done|]. apply in_seqZ. lia.
Qed.

Lemma in_block (b : Board) (br bc k : Z) :
  In k (block b br bc) ↔
  ∃ i j, br ≤ i < br + 3 ∧ bc ≤ j < bc + 3 ∧ get b i j = k.
Proof.
  unfold block. rewrite in_flat_map. split.
  - intros (i & Hi & Hin). apply in_map_iff in Hin as (j & Hk & Hj).
    apply in_seqZ in Hi, Hj. eauto.
  - intros (i & j & Hi & Hj & Hk). exists i. split; [by apply in_seqZ|].
    apply in_map_iff. exists j. split; [done|]. by apply in_seqZ.
Qed.

(** ** The digit loop *)

Section TryDigits.
Variable rec : Board → option (bool * Board).
Variables r c : Z.
Hypothesis Hrc : in_range r c.

(** The recursive call leaves the board as it found it when it fails. *)
Hypothesis rec_restores :
  ∀ b1 b2, wf b1 → rec b1 = Some (false, b2) → b2 = b1.

Lemma try_digits_false (ks : list Z) (b b' : Board) :
  wf b → get b r c = 0 →
  try_digits rec r c ks b = Some (false, b') → b' = b.
Proof.
  intros Hwf H0. induction ks as [|k ks IH]; simpl.
  - congruence.
  - destruct (isValid b r c k); [|done].
    destruct (rec (set b r c k)) as [[[] b2]|] eqn:E; [done| |done].
    apply rec_restores in E as ->; [|by apply wf_set].
    by rewrite set_undo.
Qed.

Lemma try_digits_true (ks : list Z) (b b' : Board) :
  wf b → get b r c = 0 →
  try_digits rec r c ks b = Some (true, b') →
  ∃ k, In k ks ∧ isValid b r c k = true ∧
       rec (set b r c k) = Some (true, b').
Proof.
  intros Hwf H0. induction ks as [|k ks IH]; simpl; [done|].
  destruct (isValid b r c k) eqn:Ek.
  - destruct (rec (set b r c k)) as [[[] b2]|] eqn:E; [| |done].
    + intros [= <-]. exists k. auto.
    + apply rec_restores in E as ->; [|by apply wf_set].
      rewrite set_undo by done.
      intros H. destruct (IH H) as (k' & ? & ? & ?). exists k'. auto.
  - intros H. destruct (IH H) as (k' & ? & ? & ?). exists k'. auto.
Qed.

Lemma try_digits_total (ks : list Z) (b : Board) :
  wf b → get b r c = 0 →
  (∀ k, In k ks → isValid b r c k = true →
        is_Some (rec (set b r c k))) →
  is_Some (try_digits rec r c ks b).
Proof.
  intros Hwf H0. induction ks as [|k ks IH]; simpl; intros Hrec; [eauto|].
  destruct (isValid b r c k) eqn:Ek; [|by auto].
  destruct (Hrec k) as [[[] b2] E]; auto; rewrite E; [eauto|].
  apply rec_restores in E as ->; [|by apply wf_set].
  rewrite set_undo by done. auto.
Qed.

(** If some digit of [ks] is accepted and its recursive call succeeds,
    the loop succeeds (with that digit or an earlier one). *)
Lemma try_digits_complete (ks : list Z) (b : Board) (k0 : Z) :
  wf b → get b r c = 0 →
  (∀ k, In k ks → isValid b r c k = true →
        is_Some (rec (set b r c k))) →
  In k0 ks → isValid b r c k0 = true →
  (∃ b', rec (set b r c k0) = Some (true, b')) →
  ∃ b', try_digits rec r c ks b = Some (true, b').
Proof.
  intros Hwf H0. induction ks as [|k ks IH]; simpl; [done|].
  intros Hrec Hin Hk0 [b0 Hb0].
  destruct (isValid b r c k) eqn:Ek.
  - destruct (Hrec k) as [[[] b2] E]; auto; rewrite E; [eauto|].
    assert (b2 = set b r c k) as -> by (apply rec_restores; auto using wf_set).
    rewrite set_undo by done.
    destruct Hin as [->|Hin]; [congruence|]. eauto.
  - destruct Hin as [->|Hin]; [congruence|]. eauto.
Qed.

(** With no accepted digit at all the loop fails at once. *)
Lemma try_digits_none_valid (ks : list Z) (b : Board) :
  (∀ k, In k ks → isValid b r c k = false) →
  try_digits rec r c ks b = Some (false, b).
Proof.
  induction ks as [|k ks IH]; simpl; intros H; [done|].
  rewrite (H k) by auto. auto.
Qed.
End TryDigits.

Lemma in_digits (k : Z) : In k digits ↔ 1 ≤ k ≤ 9.
Proof. unfold digits. rewrite in_seqZ. lia. Qed.

(** ** Failure restores the board *)

Lemma solveBoard_S (fuel : nat) (b : Board) (r c : Z) :
  solveBoard (S fuel) b r c =
  if r =? 9 then Some (true, b)
  else if c =? 9 then solveBoard fuel b (r + 1) 0
  else if negb (get b r c =? 0) then solveBoard fuel b r (c + 1)
  else try_digits (λ b', solveBoard fuel b' r (c + 1)) r c digits b.
Proof. reflexivity. Qed.

Lemma solveBoardEfficient_S (fuel : nat) (b : Board) :
  solveBoardEfficient (S fuel) b =
  let '(row, col, options) := findNextCell b in
  if (row =? -1) && (col =? -1) then Some (true, b)
  else try_digits (λ b', solveBoardEfficient fuel b') row col digits b.
Proof. reflexivity. Qed.

Lemma solveBoard_restores (fuel : nat) :
  ∀ b r c b', wf b → 0 ≤ r ≤ 9 → 0 ≤ c ≤ 9 →
    solveBoard fuel b r c = Some (false, b') → b' = b.
Proof.
  induction fuel as [|fuel IH]; intros b r c b' Hwf Hr Hc; [done|].
  rewrite solveBoard_S.
  destruct (r =? 9) eqn:Er; [done|].
  destruct (c =? 9) eqn:Ec; [apply IH; done || lia|].
  apply Z.eqb_neq in Er, Ec.
  destruct (get b r c =? 0) eqn:E0; simpl negb; cbv iota.
  - apply Z.eqb_eq in E0.
    apply try_digits_false; try done.
    + unfold in_range. lia.
    + intros b1 b2 Hwf1. apply IH; done || lia.
  - apply IH; done || lia.
Qed.

(** ** findNextCell *)

Lemma count_fold (p : Z → bool) (l : list Z) (a : Z) :
  foldl (λ options k, if p k then options + 1 else options) a l =
  a + Z.of_nat (length (filter (λ k, p k = true) l)).
Proof.
  revert a. induction l as [|k l IH]; intros a; simpl; [lia|].
  rewrite IH, filter_cons.
  destruct (p k); destruct (decide _); simpl; try done; lia.
Qed.

Lemma countOptions_filter (b : Board) (r c : Z) :
  countOptions b r c =
  Z.of_nat (length (filter (λ k, isValid b r c k = true) (seqZ 0 9))).
Proof. unfold countOptions. by rewrite count_fold. Qed.

Lemma countOptions_range (b : Board) (r c : Z) : 0 ≤ countOptions b r c ≤ 9.
Proof.
  rewrite countOptions_filter.
  pose proof (length_filter (λ k, isValid b r c k = true) (seqZ 0 9)) as H.
  rewrite length_seqZ in H. lia.
Qed.

(** Digit 0 always collides with the empty cell's own 0. *)
Lemma isValid_zero_empty (b : Board) (r c : Z) :
  empty_cell b r c → isValid b r c 0 = false.
Proof.
  intros [[Hr Hc] H0]. apply isValid_false_iff. left. exists c. auto.
Qed.

(** On an empty cell the options loop counts the accepted digits 1-8. *)
Lemma countOptions_empty (b : Board) (r c : Z) :
  empty_cell b r c →
  countOptions b r c = legal_count_1_8 b r c.
Proof.
  intros He. rewrite countOptions_filter. unfold legal_count_1_8.
  change (seqZ 0 9) with (0 :: seqZ 1 8).
  rewrite filter_cons, (isValid_zero_empty b r c He).
  by destruct (decide _).
Qed.

Lemma legal_count_split (b : Board) (r c : Z) :
  legal_count b r c =
  legal_count_1_8 b r c + (if isValid b r c 9 then 1 else 0).
Proof.
  unfold legal_count, legal_count_1_8.
  change (seqZ 1 9) with (seqZ 1 8 ++ [9]).
  rewrite list.filter_app, length_app, filter_cons, filter_nil.
  destruct (isValid b r c 9); destruct (decide _); simpl; try done; lia.
Qed.

Lemma scan_inv_anti (b : Board) (P Q : Z → Z → Prop) (st : scan_state) :
  (∀ i j, in_range i j → Q i j → P i j) → scan_inv b P st → scan_inv b Q st.
Proof.
  destruct st as [[m br] bc]. unfold scan_inv.
  intros HQP [(-> & -> & -> & H)|(He & Hm & H1 & H)]; [left|right]; eauto 10.
Qed.

Lemma scan_cell_spec (b : Board) (P : Z → Z → Prop) (r c : Z)
    (st : scan_state) :
  in_range r c → scan_inv b P st →
  match scan_cell b r c st with
  | Return v => scan_ret b v
  | Continue st' => scan_inv b (λ i j, P i j ∨ (i = r ∧ j = c)) st'
  end.
Proof.
  intros Hrc Hinv. destruct st as [[m br] bc]. unfold scan_cell.
  pose proof (countOptions_range b r c) as Hn.
  unfold scan_inv, scan_ret in *.
  destruct (get b r c =? 0) eqn:E0.
  - apply Z.eqb_eq in E0.
    assert (empty_cell b r c) as Hrc0 by done.
    destruct (countOptions b r c <? m) eqn:Elt.
    + apply Z.ltb_lt in Elt.
      destruct (countOptions b r c =? 1) eqn:E1.
      * apply Z.eqb_eq in E1. done.
      * apply Z.eqb_neq in E1. right. do 3 (split; [done|]).
        intros i j Hij [HP|[-> ->]] Hz; [|lia].
        destruct Hinv as [(_ & _ & _ & H)|(_ & -> & _ & H)].
        -- by destruct (H i j).
        -- specialize (H i j Hij HP Hz). lia.
    + apply Z.ltb_ge in Elt.
      destruct Hinv as [(-> & -> & -> & H)|(He & -> & H1 & H)].
      * unfold INT_MAX in Elt. lia.
      * right. do 3 (split; [done|]).
        intros i j Hij [HP|[-> ->]] Hz; [auto|lia].
  - apply Z.eqb_neq in E0.
    destruct Hinv as [(-> & -> & -> & H)|(He & -> & H1 & H)]; [left|right].
    + do 3 (split; [done|]). intros i j Hij [HP|[-> ->]]; auto.
    + do 3 (split; [done|]).
      intros i j Hij [HP|[-> ->]] Hz; [auto|done].
Qed.

Lemma scan_cols_spec (b : Board) (r : Z) (cs : list Z) :
  0 ≤ r < 9 → (∀ c, In c cs → 0 ≤ c < 9) →
  ∀ P st, scan_inv b P st →
  match scan_cols b r cs st with
  | Return v => scan_ret b v
  | Continue st' => scan_inv b (λ i j, P i j ∨ (i = r ∧ In j cs)) st'
  end.
Proof.
  intros Hr. induction cs as [|c cs IH]; intros Hcs P st Hinv; cbn [scan_cols].
  - eapply scan_inv_anti; [|done]. by intros i j _ [?|[_ []]].
  - assert (in_range r c) as Hrc by (split; [done|apply Hcs; by left]).
    pose proof (scan_cell_spec b P r c st Hrc Hinv) as Hcell.
    destruct (scan_cell b r c st) as [v|st']; [done|].
    assert (∀ c', In c' cs → 0 ≤ c' < 9) as Hcs' by (intros; apply Hcs; by right).
    specialize (IH Hcs' _ _ Hcell).
    destruct (scan_cols b r cs st') as [v|st'']; [done|].
    eapply scan_inv_anti; [|done].
    intros i j _ [?|[-> [->|?]]]; auto.
Qed.

Lemma scan_rows_spec (b : Board) (rs : list Z) :
  (∀ r, In r rs → 0 ≤ r < 9) →
  ∀ P st, scan_inv b P st →
  match scan_rows b rs st with
  | Return v => scan_ret b v
  | Continue st' => scan_inv b (λ i j, P i j ∨ In i rs) st'
  end.
Proof.
  induction rs as [|r rs IH]; intros Hrs P st Hinv; cbn [scan_rows].
  - eapply scan_inv_anti; [|done]. by intros i j _ [?|[]].
  - assert (0 ≤ r < 9) as Hr by (apply Hrs; by left).
    pose proof (scan_cols_spec b r (seqZ 0 9) Hr) as Hcols.
    specialize (Hcols (λ c, proj1 (in_seqZ 0 9 c)) P st Hinv).
    destruct (scan_cols b r (seqZ 0 9) st) as [v|st']; [done|].
    assert (∀ r', In r' rs → 0 ≤ r' < 9) as Hrs' by (intros; apply Hrs; by right).
    specialize (IH Hrs' _ _ Hcols).
    destruct (scan_rows b rs st') as [v|st'']; [done|].
    eapply scan_inv_anti; [|done].
    intros i j [_ Hj] [?|[->|?]]; auto.
    left; right. split; [done|]. by apply in_seqZ.
Qed.

(** The selector returns the sentinel on a full board, and otherwise an
    empty cell with the option count computed for it; the count is 1 (early
    exit) or minimal among all empty cells. *)
Lemma findNextCell_spec (b : Board) (r c n : Z) :
  findNextCell b = (r, c, n) →
  (full b ∧ r = -1 ∧ c = -1 ∧ n = 0) ∨
  (empty_cell b r c ∧ n = countOptions b r c ∧
   (n = 1 ∨ ∀ i j, empty_cell b i j → n ≤ countOptions b i j)).
Proof.
  unfold findNextCell.
  pose proof (scan_rows_spec b (seqZ 0 9) (λ r, proj1 (in_seqZ 0 9 r))
                (λ _ _, False) (INT_MAX, -1, -1)) as H.
  destruct (scan_rows b (seqZ 0 9) (INT_MAX, -1, -1)) as [v|[[m br] bc]].
  - intros ->. right. destruct H as (? & ? & ?); [left; done|]. auto.
  - destruct H as [(-> & -> & -> & H)|(He & -> & H1 & H)]; [left; done| |].
    + cbn. intros [= <- <- <-]. left. split; [|done].
      intros i j Hij. apply H; [done|]. right. apply in_seqZ. apply Hij.
    + destruct He as [[Hr Hc] H0].
      assert ((br =? -1) && (bc =? -1) = false) as ->.
      { apply andb_false_iff. left. apply Z.eqb_neq. lia. }
      intros [= <- <- <-]. right. do 2 (split; [done|]).
      right. intros i j [Hij Hz]. apply H; [done| |done].
      right. apply in_seqZ. apply Hij.
Qed.

Lemma findNextCell_empty (b : Board) (r c n : Z) :
  findNextCell b = (r, c, n) → (r =? -1) && (c =? -1) = false →
  empty_cell b r c.
Proof.
  intros Hf Hs. apply findNextCell_spec in Hf as [(_ & -> & -> & _)|[He _]].
  - done.
  - done.
Qed.

Lemma solveBoardEfficient_restores (fuel : nat) :
  ∀ b b', wf b → solveBoardEfficient fuel b = Some (false, b') → b' = b.
Proof.
  induction fuel as [|fuel IH]; intros b b' Hwf; [done|].
  rewrite solveBoardEfficient_S.
  destruct (findNextCell b) as [[rw cl] n] eqn:Ef.
  destruct ((rw =? -1) && (cl =? -1)) eqn:Es; [done|].
  destruct (findNextCell_empty _ _ _ _ Ef Es) as [Hrc H0].
  apply try_digits_false; auto.
Qed.

(** ** Placing a digit keeps the board good *)

Lemma keeps_givens_refl (b : Board) : keeps_givens b b.
Proof. by intros i j _ _. Qed.

Lemma keeps_givens_trans (b1 b2 b3 : Board) :
  keeps_givens b1 b2 → keeps_givens b2 b3 → keeps_givens b1 b3.
Proof.
  intros H12 H23 i j Hij Hne.
  rewrite <- (H12 i j Hij Hne). apply H23; [done|].
  by rewrite (H12 i j Hij Hne).
Qed.

Lemma keeps_givens_set (b : Board) (r c k : Z) :
  wf b → empty_cell b r c → keeps_givens b (set b r c k).
Proof.
  intros Hwf [Hrc H0] i j Hij Hne.
  rewrite get_set by done.
  destruct (decide _) as [[= -> ->]|]; done.
Qed.

Lemma peer_sym (r c i j : Z) : peer r c i j → peer i j r c.
Proof. unfold peer. intros [->|[->|[-> ->]]]; auto. Qed.

Lemma place_good (b : Board) (r c k : Z) :
  good b → empty_cell b r c → 1 ≤ k ≤ 9 → isValid b r c k = true →
  good (set b r c k).
Proof.
  intros (Hwf & Hval & Hnc) [Hrc H0] Hk Hv.
  rewrite isValid_true_iff in Hv by done.
  split; [by apply wf_set|]. split.
  - intros i j Hij. rewrite get_set by done.
    destruct (decide _); [lia|auto].
  - intros i j i' j' Hij Hij' Hne Hp.
    rewrite !get_set by done.
    destruct (decide ((i, j) = (r, c))) as [[= -> ->]|Hn1];
      destruct (decide ((i', j') = (r, c))) as [[= -> ->]|Hn2].
    + done.
    + intros _ Heq. by apply (Hv i' j').
    + intros _ Heq. apply (Hv i j); [done| |done]. by apply peer_sym.
    + by apply Hnc.
Qed.

(** ** Soundness of the two searches *)

Lemma solveBoard_true (fuel : nat) :
  ∀ b r c b', good b → 0 ≤ r ≤ 9 → 0 ≤ c ≤ 9 →
    solveBoard fuel b r c = Some (true, b') →
    good b' ∧ keeps_givens b b' ∧
    ∀ i j, in_range i j → 9 * r + c ≤ 9 * i + j → get b' i j ≠ 0.
Proof.
  induction fuel as [|fuel IH]; intros b r c b' Hg Hr Hc; [done|].
  rewrite solveBoard_S.
  destruct (r =? 9) eqn:Er.
  { apply Z.eqb_eq in Er. intros [= <-].
    split; [done|]. split; [apply keeps_givens_refl|].
    unfold in_range. intros; lia. }
  apply Z.eqb_neq in Er.
  destruct (c =? 9) eqn:Ec.
  { apply Z.eqb_eq in Ec. intros H.
    apply IH in H as (? & ? & Hfull); [|done|lia|lia].
    do 2 (split; [done|]). intros i j Hij Hle. apply Hfull; [done|lia]. }
  apply Z.eqb_neq in Ec.
  assert (in_range r c) as Hrc by (unfold in_range; lia).
  destruct (get b r c =? 0) eqn:E0; simpl negb; cbv iota.
  - apply Z.eqb_eq in E0. intros H.
    apply try_digits_true in H as (k & Hk & Hv & H); try done.
    + apply in_digits in Hk.
      apply IH in H as (Hg' & Hkeep & Hfull);
        [|by apply place_good|lia|lia].
      assert (keeps_givens b b') as Hkeep'.
      { eapply keeps_givens_trans; [|done].
        apply keeps_givens_set; [apply Hg|done]. }
      do 2 (split; [done|]). intros i j Hij Hle.
      destruct (decide ((i, j) = (r, c))) as [[= -> ->]|Hne].
      * rewrite (Hkeep r c Hrc); rewrite get_set_eq; try done || lia.
        all: apply Hg.
      * apply Hfull; [done|]. unfold in_range in *.
        assert (9 * r + c ≠ 9 * i + j); [|lia].
        intros Heq. apply Hne. f_equal; lia.
    + intros b1 b2 Hwf1. apply solveBoard_restores; done || lia.
    + apply Hg.
  - apply Z.eqb_neq in E0. intros H.
    apply IH in H as (Hg' & Hkeep & Hfull); [|done|lia|lia].
    do 2 (split; [done|]). intros i j Hij Hle.
    destruct (decide ((i, j) = (r, c))) as [[= -> ->]|Hne].
    + by rewrite (Hkeep r c Hrc).
    + apply Hfull; [done|]. unfold in_range in *.
      assert (9 * r + c ≠ 9 * i + j); [|lia].
      intros Heq. apply Hne. f_equal; lia.
Qed.

Lemma solveBoardEfficient_true (fuel : nat) :
  ∀ b b', good b → solveBoardEfficient fuel b = Some (true, b') →
    good b' ∧ keeps_givens b b' ∧ full b'.
Proof.
  induction fuel as [|fuel IH]; intros b b' Hg; [done|].
  rewrite solveBoardEfficient_S.
  destruct (findNextCell b) as [[rw cl] n] eqn:Ef.
  destruct ((rw =? -1) && (cl =? -1)) eqn:Es.
  - intros [= <-].
    apply findNextCell_spec in Ef as [(Hfull & _)|([[Hr Hc] _] & _)].
    + split; [done|]. split; [apply keeps_givens_refl|done].
    + apply andb_true_iff in Es as [Es _]. apply Z.eqb_eq in Es. lia.
  - pose proof (findNextCell_empty _ _ _ _ Ef Es) as He.
    intros H.
    apply try_digits_true in H as (k & Hk & Hv & H);
      [|apply He|apply solveBoardEfficient_restores|apply Hg|apply He].
    apply in_digits in Hk.
    apply IH in H as (Hg' & Hkeep & Hfull); [|by apply place_good].
    split; [done|]. split; [|done].
    eapply keeps_givens_trans; [|done].
    apply keeps_givens_set; [apply Hg|done].
Qed.

(** ** Units: rows, columns and blocks *)

Lemma row_unit (b : Board) (i : Z) : row b i = unit_vals b (row_cell i).
Proof. reflexivity. Qed.

Lemma col_unit (b : Board) (j : Z) : col b j = unit_vals b (col_cell j).
Proof. reflexivity. Qed.

Lemma block_unit (b : Board) (br bc : Z) :
  block b br bc = unit_vals b (block_cell br bc).
Proof. reflexivity. Qed.

Lemma length_unit_vals (b : Board) (u : Z → Z * Z) :
  length (unit_vals b u) = 9%nat.
Proof. reflexivity. Qed.

Lemma count_occ_digits (d : Z) :
  1 ≤ d ≤ 9 → count_occ Z.eq_dec digits d = 1%nat.
Proof.
  intros Hd.
  assert (d = 1 ∨ d = 2 ∨ d = 3 ∨ d = 4 ∨ d = 5 ∨ d = 6 ∨ d = 7 ∨ d = 8 ∨
          d = 9) as H by lia.
  repeat destruct H as [->|H]; try subst d; reflexivity.
Qed.

(** Nine distinct digits are all nine digits. *)
Lemma each_once_intro (l : list Z) :
  List.NoDup l → length l = 9%nat → (∀ x, In x l → 1 ≤ x ≤ 9) →
  each_once l.
Proof.
  intros Hnd Hlen Hin d Hd.
  assert (Permutation l digits) as Hp.
  { apply NoDup_Permutation_bis; [done|rewrite Hlen; change (length digits) with 9%nat; lia|].
    intros x Hx. apply in_digits. auto. }
  rewrite (proj1 (Permutation_count_occ Z.eq_dec l digits) Hp).
  by apply count_occ_digits.
Qed.

Lemma each_once_elim (l : list Z) :
  each_once l → length l = 9%nat →
  List.NoDup l ∧ ∀ x, In x l → 1 ≤ x ≤ 9.
Proof.
  intros Hl Hlen.
  assert (Permutation digits l) as Hp.
  { apply NoDup_Permutation_bis; [apply NoDup_ListNoDup, NoDup_seqZ|rewrite Hlen; change (length digits) with 9%nat; lia|].
    intros d Hd. apply in_digits in Hd.
    apply (count_occ_In Z.eq_dec). rewrite Hl by done. lia. }
  split.
  - eapply Permutation_NoDup; [done|apply NoDup_ListNoDup, NoDup_seqZ].
  - intros x Hx. apply in_digits.
    eapply Permutation_in; [symmetry|]; done.
Qed.

Lemma NoDup_map_inj {A B : Type} (f : A → B) (l : list A) (x y : A) :
  List.NoDup (map f l) → In x l → In y l → f x = f y → x = y.
Proof.
  induction l as [|a l IH]; simpl; [done|].
  intros Hnd. apply List.NoDup_cons_iff in Hnd as [Hna Hnd].
  intros [->|Hx] [->|Hy] Heq; auto.
  - destruct Hna. rewrite Heq. by apply in_map.
  - destruct Hna. rewrite <- Heq. by apply in_map.
Qed.

Section Units.
Variable b : Board.
Variable u : Z → Z * Z.
Hypothesis u_range : ∀ k, 0 ≤ k < 9 → in_range (u k).1 (u k).2.
Hypothesis u_peers : ∀ k k', 0 ≤ k < 9 → 0 ≤ k' < 9 → k ≠ k' →
  u k ≠ u k' ∧ peer (u k).1 (u k).2 (u k').1 (u k').2.

Lemma unit_each_once : good b → full b → each_once (unit_vals b u).
Proof.
  intros (Hwf & Hval & Hnc) Hfull.
  apply each_once_intro; [|done|].
  - apply NoDup_map_NoDup_ForallPairs; [|apply NoDup_ListNoDup, NoDup_seqZ].
    intros k k' Hk Hk' Heq. apply in_seqZ in Hk, Hk'.
    destruct (decide (k = k')) as [|Hne]; [done|].
    destruct (u_peers k k') as [Hu Hp]; [lia..|].
    assert (in_range (u k).1 (u k).2) as Hr by (apply u_range; lia).
    assert (in_range (u k').1 (u k').2) as Hr' by (apply u_range; lia).
    destruct (Hnc _ _ _ _ Hr Hr'); [|done|by apply Hfull|done].
    intros [= H1 H2]. apply Hu. by apply injective_projections.
  - intros x Hx. apply in_map_iff in Hx as (k & <- & Hk).
    apply in_seqZ in Hk.
    assert (in_range (u k).1 (u k).2) as Hr by (apply u_range; lia).
    specialize (Hval _ _ Hr). specialize (Hfull _ _ Hr). lia.
Qed.

Lemma unit_distinct (k k' : Z) :
  each_once (unit_vals b u) → 0 ≤ k < 9 → 0 ≤ k' < 9 → k ≠ k' →
  get b (u k).1 (u k).2 ≠ get b (u k').1 (u k').2.
Proof.
  intros He Hk Hk' Hne Heq.
  apply each_once_elim in He as [Hnd _]; [|done].
  apply Hne.
  apply (NoDup_map_inj _ _ _ _ Hnd); [apply in_seqZ; lia..|done].
Qed.

Lemma unit_digit (k : Z) :
  each_once (unit_vals b u) → 0 ≤ k < 9 →
  1 ≤ get b (u k).1 (u k).2 ≤ 9.
Proof.
  intros He Hk.
  apply each_once_elim in He as [_ Hin]; [|done].
  apply Hin. unfold unit_vals. apply in_map_iff.
  exists k. split; [done|]. apply in_seqZ. lia.
Qed.
End Units.

Ltac quot_lia :=
  unfold in_range in *; simpl fst in *; simpl snd in *;
  Z.to_euclidean_division_equations; lia.

Lemma block_cell_range (br bc k : Z) :
  0 ≤ br < 3 → 0 ≤ bc < 3 → 0 ≤ k < 9 →
  in_range (block_cell (3 * br) (3 * bc) k).1 (block_cell (3 * br) (3 * bc) k).2.
Proof. intros. unfold block_cell. quot_lia. Qed.

Lemma block_cell_peers (br bc k k' : Z) :
  0 ≤ br < 3 → 0 ≤ bc < 3 → 0 ≤ k < 9 → 0 ≤ k' < 9 → k ≠ k' →
  block_cell (3 * br) (3 * bc) k ≠ block_cell (3 * br) (3 * bc) k' ∧
  peer (block_cell (3 * br) (3 * bc) k).1 (block_cell (3 * br) (3 * bc) k).2
       (block_cell (3 * br) (3 * bc) k').1 (block_cell (3 * br) (3 * bc) k').2.
Proof.
  intros Hbr Hbc Hk Hk' Hne. unfold block_cell, peer. simpl. split.
  - intros [= H1 H2]. apply Hne. quot_lia.
  - right; right.
    assert (0 ≤ k ÷ 3 < 3 ∧ 0 ≤ k' ÷ 3 < 3 ∧
            0 ≤ Z.rem k 3 < 3 ∧ 0 ≤ Z.rem k' 3 < 3) as (? & ? & ? & ?)
      by quot_lia.
    split.
    + transitivity br; [|symmetry]; quot_lia.
    + transitivity bc; [|symmetry]; quot_lia.
Qed.

(** A good board without empty cells is solved. *)
Lemma good_full_solved (b : Board) : good b → full b → solved b.
Proof.
  intros Hg Hf. split.
  - intros i Hi. split.
    + rewrite row_unit. apply unit_each_once; try done.
      intros k k' Hk Hk' Hne. split; [intros [= ?]; done|by left].
    + rewrite col_unit. apply unit_each_once; try done.
      intros k k' Hk Hk' Hne. split; [intros [= ?]; done|right; by left].
  - intros br bc Hbr Hbc. rewrite block_unit.
    apply unit_each_once; try done.
    + intros k Hk. by apply block_cell_range.
    + intros k k' Hk Hk' Hne. by apply block_cell_peers.
Qed.

(** A solved board is good and has no empty cell. *)
Lemma solved_digit (s : Board) (i j : Z) :
  solved s → in_range i j → 1 ≤ get s i j ≤ 9.
Proof.
  intros [Hrc _] [Hi Hj].
  destruct (Hrc i Hi) as [Hrow _]. rewrite row_unit in Hrow.
  apply (unit_digit s (row_cell i) j Hrow Hj).
Qed.

Lemma solved_no_conflict (s : Board) : solved s → no_conflict s.
Proof.
  intros [Hrc Hblk] i j i' j' [Hi Hj] [Hi' Hj'] Hne Hp _.
  destruct Hp as [->|[->|[Hp1 Hp2]]].
  - destruct (Hrc i Hi) as [Hrow _]. rewrite row_unit in Hrow.
    apply (unit_distinct s (row_cell i) j j' Hrow Hj Hj'). congruence.
  - destruct (Hrc j Hj) as [_ Hcol]. rewrite col_unit in Hcol.
    apply (unit_distinct s (col_cell j) i i' Hcol Hi Hi'). congruence.
  - assert (0 ≤ i ÷ 3 < 3) as Hbr by quot_lia.
    assert (0 ≤ j ÷ 3 < 3) as Hbc by quot_lia.
    pose proof (Hblk _ _ Hbr Hbc) as Hb. rewrite block_unit in Hb.
    set (u := block_cell (3 * (i ÷ 3)) (3 * (j ÷ 3))) in *.
    assert (u (3 * Z.rem i 3 + Z.rem j 3) = (i, j)) as Hu.
    { unfold u, block_cell. f_equal; quot_lia. }
    assert (u (3 * Z.rem i' 3 + Z.rem j' 3) = (i', j')) as Hu'.
    { unfold u, block_cell. f_equal; quot_lia. }
    pose proof (unit_distinct s u (3 * Z.rem i 3 + Z.rem j 3)
                  (3 * Z.rem i' 3 + Z.rem j' 3) Hb) as Hd.
    rewrite Hu, Hu' in Hd. apply Hd.
    + quot_lia.
    + quot_lia.
    + intros Heq. apply Hne. rewrite <- Hu, <- Hu'. by rewrite Heq.
Qed.

Lemma solved_good (s : Board) : wf s → solved s → good s ∧ full s.
Proof.
  intros Hwf Hs. split; [split; [done|split]|].
  - intros i j Hij. pose proof (solved_digit s i j Hs Hij). lia.
  - by apply solved_no_conflict.
  - intros i j Hij. pose proof (solved_digit s i j Hs Hij). lia.
Qed.

(** A board with a completion is good. *)
Lemma solvable_good (b s : Board) : wf b → completion b s → good b.
Proof.
  intros Hwf (Hwfs & Hs & Hk).
  destruct (solved_good s Hwfs Hs) as [(_ & Hval & Hnc) Hfull].
  split; [done|]. split.
  - intros i j Hij. destruct (decide (get b i j = 0)) as [->|Hne]; [lia|].
    rewrite <- (Hk i j Hij Hne). by apply Hval.
  - intros i j i' j' Hij Hij' Hne Hp Hnz Heq.
    assert (get b i' j' ≠ 0) as Hnz' by congruence.
    apply (Hnc i j i' j'); try done.
    + rewrite (Hk i j Hij Hnz). done.
    + rewrite (Hk i j Hij Hnz), (Hk i' j' Hij' Hnz'). done.
Qed.

(** ** Termination *)

Lemma solveBoard_terminates (fuel : nat) :
  ∀ b r c, wf b → 0 ≤ r ≤ 9 → 0 ≤ c ≤ 9 → (frames r c ≤ fuel)%nat →
    is_Some (solveBoard fuel b r c).
Proof.
  induction fuel as [|fuel IH]; intros b r c Hwf Hr Hc Hf.
  { unfold frames in Hf. destruct (r =? 9) eqn:Er; [lia|].
    apply Z.eqb_neq in Er. lia. }
  rewrite solveBoard_S. unfold frames in Hf.
  destruct (r =? 9) eqn:Er; [eauto|].
  apply Z.eqb_neq in Er.
  destruct (c =? 9) eqn:Ec.
  { apply Z.eqb_eq in Ec. apply IH; [done|lia|lia|].
    unfold frames. destruct (r + 1 =? 9) eqn:Er1; [lia|].
    apply Z.eqb_neq in Er1. lia. }
  apply Z.eqb_neq in Ec.
  assert (frames r (c + 1) ≤ fuel)%nat as Hf'.
  { unfold frames. rewrite (proj2 (Z.eqb_neq r 9) Er). lia. }
  destruct (get b r c =? 0) eqn:E0; simpl negb; cbv iota.
  - apply Z.eqb_eq in E0. apply try_digits_total; try done.
    + unfold in_range. lia.
    + intros b1 b2 Hwf1. apply solveBoard_restores; done || lia.
    + intros k _ _. apply IH; [by apply wf_set|lia|lia|done].
  - apply IH; [done|lia|lia|done].
Qed.

Lemma alter_as_insert {A : Type} (f : A → A) (l : list A) (i : nat) (x : A) :
  l !! i = Some x → alter f i l = <[i := f x]> l.
Proof.
  revert i. induction l as [|a l IH]; intros [|i]; simpl; try done.
  - by intros [= ->].
  - intros H. f_equal. by apply IH.
Qed.

Lemma count_zero_insert (l : list Z) (i : nat) (k : Z) :
  l !! i = Some 0 → k ≠ 0 →
  S (length (filter (λ v, v = 0) (<[i := k]> l))) =
  length (filter (λ v, v = 0) l).
Proof.
  intros Hi Hk.
  rewrite insert_take_drop by (by eapply lookup_lt_Some).
  rewrite <- (take_drop_middle l i 0 Hi) at 3.
  rewrite !list.filter_app, !length_app, !filter_cons.
  destruct (decide (k = 0)); [done|].
  destruct (decide (0 = 0)); [|done].
  simpl. lia.
Qed.

Lemma count_empty_set (b : Board) (r c k : Z) :
  wf b → empty_cell b r c → k ≠ 0 →
  S (count_empty (set b r c k)) = count_empty b.
Proof.
  intros Hwf [Hrc H0] Hk.
  destruct (wf_lookup_cell b r c Hwf Hrc) as (rw & Hrw & Hv).
  rewrite H0 in Hv. unfold count_empty, set.
  rewrite (alter_as_insert _ _ _ _ Hrw).
  rewrite insert_take_drop by (by eapply lookup_lt_Some).
  rewrite <- (take_drop_middle b _ _ Hrw) at 3.
  rewrite !concat_app, !list.filter_app, !length_app. simpl.
  rewrite !list.filter_app, !length_app.
  rewrite <- (count_zero_insert rw (Z.to_nat c) k Hv Hk). lia.
Qed.

Lemma length_concat_rows (b : Board) (n : nat) :
  Forall (λ rw, length rw = n) b → length (concat b) = (length b * n)%nat.
Proof.
  induction 1 as [|rw b Hrw _ IH]; simpl; [done|].
  rewrite length_app, IH, Hrw. done.
Qed.

Lemma count_empty_le (b : Board) : wf b → (count_empty b ≤ 81)%nat.
Proof.
  intros [Hl Hr]. unfold count_empty.
  etransitivity; [apply length_filter|].
  rewrite (length_concat_rows b 9 Hr), Hl. done.
Qed.

Lemma solveBoardEfficient_terminates (fuel : nat) :
  ∀ b, wf b → (count_empty b < fuel)%nat →
    is_Some (solveBoardEfficient fuel b).
Proof.
  induction fuel as [|fuel IH]; intros b Hwf Hf; [lia|].
  rewrite solveBoardEfficient_S.
  destruct (findNextCell b) as [[rw cl] n] eqn:Ef.
  destruct ((rw =? -1) && (cl =? -1)) eqn:Es; [eauto|].
  pose proof (findNextCell_empty _ _ _ _ Ef Es) as He.
  apply try_digits_total; try done || apply He.
  - apply solveBoardEfficient_restores.
  - intros k Hk _. apply in_digits in Hk.
    apply IH; [by apply wf_set|].
    pose proof (count_empty_set b rw cl k Hwf He). lia.
Qed.

(** ** Completeness *)

Lemma completion_isValid (b s : Board) (r c : Z) :
  completion b s → empty_cell b r c → isValid b r c (get s r c) = true.
Proof.
  intros (Hwfs & Hs & Hk) [Hrc H0].
  apply isValid_true_iff; [done|]. intros i j Hij Hp Heq.
  pose proof (solved_digit s r c Hs Hrc) as Hd.
  assert (get b i j ≠ 0) as Hnz by lia.
  destruct (decide ((i, j) = (r, c))) as [[= -> ->]|Hne]; [done|].
  apply (solved_no_conflict s Hs r c i j); try done; try congruence; try lia.
  rewrite (Hk i j Hij Hnz). done.
Qed.

Lemma completion_set (b s : Board) (r c : Z) :
  wf b → completion b s → in_range r c →
  completion (set b r c (get s r c)) s.
Proof.
  intros Hwf (Hwfs & Hs & Hk) Hrc. do 2 (split; [done|]).
  intros i j Hij. rewrite get_set by done.
  destruct (decide _) as [[= -> ->]|Hne]; [done|]. by apply Hk.
Qed.

Lemma solveBoard_complete (fuel : nat) :
  ∀ b r c s, wf b → 0 ≤ r ≤ 9 → 0 ≤ c ≤ 9 → (frames r c ≤ fuel)%nat →
    completion b s → ∃ b', solveBoard fuel b r c = Some (true, b').
Proof.
  induction fuel as [|fuel IH]; intros b r c s Hwf Hr Hc Hf Hcomp.
  { unfold frames in Hf. destruct (r =? 9) eqn:Er; [lia|].
    apply Z.eqb_neq in Er. lia. }
  rewrite solveBoard_S. unfold frames in Hf.
  destruct (r =? 9) eqn:Er; [eauto|].
  apply Z.eqb_neq in Er.
  destruct (c =? 9) eqn:Ec.
  { apply Z.eqb_eq in Ec. apply (IH _ _ _ s); [done|lia|lia| |done].
    unfold frames. destruct (r + 1 =? 9) eqn:Er1; [lia|].
    apply Z.eqb_neq in Er1. lia. }
  apply Z.eqb_neq in Ec.
  assert (frames r (c + 1) ≤ fuel)%nat as Hf'.
  { unfold frames. rewrite (proj2 (Z.eqb_neq r 9) Er). lia. }
  assert (in_range r c) as Hrc by (unfold in_range; lia).
  destruct (get b r c =? 0) eqn:E0; simpl negb; cbv iota.
  - apply Z.eqb_eq in E0.
    apply (try_digits_complete _ r c Hrc) with (k0 := get s r c); try done.
    + intros b1 b2 Hwf1. apply solveBoard_restores; done || lia.
    + intros k _ _.
      apply solveBoard_terminates; [by apply wf_set|lia|lia|done].
    + apply in_digits. apply solved_digit; [apply Hcomp|done].
    + by apply completion_isValid.
    + apply (IH _ _ _ s); [by apply wf_set|lia|lia|done|].
      by apply completion_set.
  - by apply (IH _ _ _ s); [done|lia|lia|done|].
Qed.

Lemma solveBoardEfficient_complete (fuel : nat) :
  ∀ b s, wf b → (count_empty b < fuel)%nat → completion b s →
    ∃ b', solveBoardEfficient fuel b = Some (true, b').
Proof.
  induction fuel as [|fuel IH]; intros b s Hwf Hf Hcomp; [lia|].
  rewrite solveBoardEfficient_S.
  destruct (findNextCell b) as [[rw cl] n] eqn:Ef.
  destruct ((rw =? -1) && (cl =? -1)) eqn:Es; [eauto|].
  pose proof (findNextCell_empty _ _ _ _ Ef Es) as He.
  assert (∀ k, 1 ≤ k ≤ 9 → (count_empty (set b rw cl k) < fuel)%nat) as Hlt.
  { intros k Hk. pose proof (count_empty_set b rw cl k Hwf He). lia. }
  apply (try_digits_complete _ rw cl (proj1 He)) with (k0 := get s rw cl);
    try done || apply He.
  - apply solveBoardEfficient_restores.
  - intros k Hk _. apply in_digits in Hk.
    apply solveBoardEfficient_terminates; [by apply wf_set|auto].
  - apply in_digits. apply solved_digit; [apply Hcomp|apply He].
  - by apply completion_isValid.
  - pose proof (solved_digit s rw cl (proj1 (proj2 Hcomp)) (proj1 He)).
    apply (IH _ s); [by apply wf_set|auto|].
    apply completion_set; [done..|apply He].
Qed.

(** ** Boolean checks *)

Lemma forallb_seqZ (f : Z → bool) (m n : Z) :
  forallb f (seqZ m n) = true ↔ ∀ i, m ≤ i < m + n → f i = true.
Proof.
  rewrite forallb_forall. split; intros H i Hi; apply H; by apply in_seqZ.
Qed.

Lemma forallb_cells (f : Z → Z → bool) :
  forallb (λ i, forallb (λ j, f i j) (seqZ 0 9)) (seqZ 0 9) = true ↔
  ∀ i j, in_range i j → f i j = true.
Proof.
  rewrite forallb_seqZ. split.
  - intros H i j [Hi Hj].
    specialize (H i Hi). rewrite forallb_seqZ in H. by apply H.
  - intros H i Hi. apply forallb_seqZ. intros j Hj. by apply H.
Qed.

Lemma fullb_spec (b : Board) : fullb b = true → full b.
Proof.
  unfold fullb. rewrite forallb_cells. intros H i j Hij.
  specialize (H i j Hij). apply negb_true_iff in H. by apply Z.eqb_neq.
Qed.

Lemma values_okb_spec (b : Board) : values_okb b = true → values_ok b.
Proof.
  unfold values_okb. rewrite forallb_cells. intros H i j Hij.
  specialize (H i j Hij). apply andb_true_iff in H as [H1 H2]. lia.
Qed.

Lemma no_conflictb_spec (b : Board) : no_conflictb b = true → no_conflict b.
Proof.
  unfold no_conflictb. rewrite forallb_cells.
  intros H i j i' j' Hij Hij' Hne Hp Hnz Heq.
  specialize (H i j Hij).
  apply orb_true_iff in H as [H|H]; [apply Z.eqb_eq in H; done|].
  rewrite forallb_cells in H. specialize (H i' j' Hij').
  apply orb_true_iff in H as [H|H].
  - apply orb_true_iff in H as [H|H].
    + apply andb_true_iff in H as [H1 H2]. apply Hne. f_equal; lia.
    + apply negb_true_iff in H.
      assert ((i' =? i) || (j' =? j) ||
              (i' ÷ 3 =? i ÷ 3) && (j' ÷ 3 =? j ÷ 3) = true) as Ht;
        [|congruence].
      destruct Hp as [->|[->|[Hp1 Hp2]]].
      * by rewrite Z.eqb_refl.
      * by rewrite Z.eqb_refl, orb_true_r.
      * by rewrite Hp1, Hp2, !Z.eqb_refl, orb_true_r.
  - apply negb_true_iff, Z.eqb_neq in H. done.
Qed.

Lemma goodb_spec (b : Board) : goodb b = true → good b.
Proof.
  unfold goodb. rewrite !andb_true_iff. intros [[H1 H2] H3].
  split; [by apply wfb_spec|].
  split; [by apply values_okb_spec|by apply no_conflictb_spec].
Qed.

Lemma each_onceb_spec (l : list Z) : each_onceb l = true → each_once l.
Proof.
  unfold each_onceb. rewrite forallb_forall. intros H d Hd.
  apply Nat.eqb_eq, H, in_digits, Hd.
Qed.

Lemma solvedb_spec (b : Board) : solvedb b = true → solved b.
Proof.
  unfold solvedb. rewrite andb_true_iff, !forallb_seqZ. intros [H1 H2]. split.
  - intros i Hi. specialize (H1 i Hi).
    apply andb_true_iff in H1 as [Hr Hc]. split; by apply each_onceb_spec.
  - intros br bc Hbr Hbc. specialize (H2 br Hbr).
    rewrite forallb_seqZ in H2. by apply each_onceb_spec, H2.
Qed.

(** ** More fuel never changes a result *)

Lemma try_digits_mono (rec1 rec2 : Board → option (bool * Board))
    (r c : Z) (ks : list Z) :
  (∀ b x, rec1 b = Some x → rec2 b = Some x) →
  ∀ b x, try_digits rec1 r c ks b = Some x →
         try_digits rec2 r c ks b = Some x.
Proof.
  intros Hrec. induction ks as [|k ks IH]; intros b x; simpl; [done|].
  destruct (isValid b r c k); [|by auto].
  destruct (rec1 (set b r c k)) as [[[] b1]|] eqn:E; [| |done];
    rewrite (Hrec _ _ E); auto.
Qed.

Lemma solveBoard_mono (n m : nat) :
  (n ≤ m)%nat → ∀ b r c x,
  solveBoard n b r c = Some x → solveBoard m b r c = Some x.
Proof.
  revert m. induction n as [|n IH]; intros m Hle b r c x; [done|].
  destruct m as [|m]; [lia|].
  rewrite !solveBoard_S.
  destruct (r =? 9); [done|].
  destruct (c =? 9); [apply IH; lia|].
  destruct (negb (get b r c =? 0)); [apply IH; lia|].
  apply try_digits_mono. intros b1 x1. apply IH. lia.
Qed.

Lemma solveBoardEfficient_mono (n m : nat) :
  (n ≤ m)%nat → ∀ b x,
  solveBoardEfficient n b = Some x → solveBoardEfficient m b = Some x.
Proof.
  revert m. induction n as [|n IH]; intros m Hle b x; [done|].
  destruct m as [|m]; [lia|].
  rewrite !solveBoardEfficient_S.
  destruct (findNextCell b) as [[rw cl] o].
  destruct ((rw =? -1) && (cl =? -1)); [done|].
  apply try_digits_mono. intros b1 x1. apply IH. lia.
Qed.

(** ** Counting accepted digits *)

Lemma filter_none (P : Z → Prop) `{∀ k, Decision (P k)} (l : list Z) :
  (∀ k, In k l → ¬ P k) → filter P l = [].
Proof.
  induction l as [|a l IH]; intros Hl; [done|].
  rewrite filter_cons. destruct (decide (P a)) as [Ha|_].
  - destruct (Hl a); [by left|done].
  - apply IH. intros k Hk. apply Hl. by right.
Qed.

Lemma filter_one (P : Z → Prop) `{∀ k, Decision (P k)} (l : list Z) (k0 : Z) :
  List.NoDup l → In k0 l → (∀ k, In k l → (P k ↔ k = k0)) →
  length (filter P l) = 1%nat.
Proof.
  induction l as [|a l IH]; intros Hnd Hin HP; [done|].
  apply List.NoDup_cons_iff in Hnd as [Hna Hnd].
  rewrite filter_cons. destruct (decide (P a)) as [Ha|Ha].
  - apply HP in Ha as ->; [|by left].
    rewrite filter_none; [done|].
    intros k Hk HPk. apply HP in HPk as ->; [done|by right].
  - destruct Hin as [->|Hin].
    + destruct Ha. apply HP; [by left|done].
    + apply IH; [done..|]. intros k Hk. apply HP. by right.
Qed.

(** An empty cell whose only accepted digit is [k0], one of 1-8, gets option
    count 1. *)
Lemma countOptions_forced (b : Board) (r c k0 : Z) :
  empty_cell b r c → 1 ≤ k0 ≤ 8 →
  (∀ k, 1 ≤ k ≤ 9 → (isValid b r c k = true ↔ k = k0)) →
  countOptions b r c = 1.
Proof.
  intros He Hk0 Hv. rewrite countOptions_empty by done.
  unfold legal_count_1_8.
  rewrite (filter_one _ (seqZ 1 8) k0); [done| | |].
  - apply NoDup_ListNoDup, NoDup_seqZ.
  - apply in_seqZ. lia.
  - intros k Hk. apply in_seqZ in Hk. apply Hv. lia.
Qed.

(** An empty cell whose only accepted digit is 9 gets option count 0. *)
Lemma countOptions_only_nine (b : Board) (r c : Z) :
  empty_cell b r c →
  (∀ k, 1 ≤ k ≤ 9 → (isValid b r c k = true ↔ k = 9)) →
  countOptions b r c = 0.
Proof.
  intros He Hv. rewrite countOptions_empty by done.
  unfold legal_count_1_8. rewrite filter_none; [done|].
  intros k Hk Hvk. apply in_seqZ in Hk. apply Hv in Hvk; lia.
Qed.

(** ** Forced moves and full boards *)

Lemma try_digits_forced (rec : Board → option (bool * Board))
    (r c k0 : Z) (ks : list Z) (b b' : Board) :
  (∀ k, In k ks → (isValid b r c k = true ↔ k = k0)) → In k0 ks →
  rec (set b r c k0) = Some (true, b') →
  try_digits rec r c ks b = Some (true, b').
Proof.
  intros Hv Hin Hrec. induction ks as [|k ks IH]; simpl; [done|].
  destruct (decide (k = k0)) as [->|Hne].
  - rewrite (proj2 (Hv k0 (or_introl eq_refl)) eq_refl), Hrec. done.
  - destruct (isValid b r c k) eqn:Ek.
    + apply Hv in Ek; [done|by left].
    + destruct Hin as [->|Hin]; [done|].
      apply IH; [|done]. intros k' Hk'. apply Hv. by right.
Qed.

(** From a cursor behind which every cell is filled, [solveBoard] walks to
    the end of the grid and succeeds without writing. *)
Lemma solveBoard_full (fuel : nat) :
  ∀ b r c, 0 ≤ r ≤ 9 → 0 ≤ c ≤ 9 → (frames r c ≤ fuel)%nat →
    (∀ i j, in_range i j → 9 * r + c ≤ 9 * i + j → get b i j ≠ 0) →
    solveBoard fuel b r c = Some (true, b).
Proof.
  induction fuel as [|fuel IH]; intros b r c Hr Hc Hf Hfull.
  { unfold frames in Hf. destruct (r =? 9) eqn:Er; [lia|].
    apply Z.eqb_neq in Er. lia. }
  rewrite solveBoard_S. unfold frames in Hf.
  destruct (r =? 9) eqn:Er; [done|].
  apply Z.eqb_neq in Er.
  destruct (c =? 9) eqn:Ec.
  { apply Z.eqb_eq in Ec. apply IH; [lia|lia| |].
    - unfold frames. destruct (r + 1 =? 9) eqn:Er1; [lia|].
      apply Z.eqb_neq in Er1. lia.
    - intros i j Hij Hle. apply Hfull; [done|lia]. }
  apply Z.eqb_neq in Ec.
  assert (get b r c ≠ 0) as Hnz.
  { apply Hfull; [unfold in_range; lia|lia]. }
  rewrite (proj2 (Z.eqb_neq _ _) Hnz). simpl negb. cbv iota.
  apply IH; [lia|lia| |].
  - unfold frames. rewrite (proj2 (Z.eqb_neq r 9) Er). lia.
  - intros i j Hij Hle. apply Hfull; [done|lia].
Qed.

Lemma findNextCell_full (b : Board) : full b → findNextCell b = (-1, -1, 0).
Proof.
  intros Hfull. destruct (findNextCell b) as [[r c] n] eqn:Ef.
  apply findNextCell_spec in Ef as [(_ & -> & -> & ->)|([Hrc H0] & _)].
  - done.
  - by destruct (Hfull r c Hrc).
Qed.

Lemma solveBoardEfficient_full (fuel : nat) (b : Board) :
  full b → solveBoardEfficient (S fuel) b = Some (true, b).
Proof.
  intros Hfull. by rewrite solveBoardEfficient_S, findNextCell_full.
Qed.

(** If [(r, c)] is the only empty cell, the selector returns it. *)
Lemma findNextCell_single (b : Board) (r c : Z) :
  empty_cell b r c → (∀ i j, empty_cell b i j → (i, j) = (r, c)) →
  findNextCell b = (r, c, countOptions b r c).
Proof.
  intros He Honly. destruct (findNextCell b) as [[r' c'] n] eqn:Ef.
  apply findNextCell_spec in Ef as [(Hfull & _)|(He' & -> & _)].
  - destruct He as [Hrc H0]. by destruct (Hfull r c Hrc).
  - pose proof (Honly r' c' He') as [= -> ->]. done.
Qed.

Lemma full_set (b : Board) (r c k : Z) :
  wf b → in_range r c → k ≠ 0 →
  (∀ i j, in_range i j → (i, j) ≠ (r, c) → get b i j ≠ 0) →
  full (set b r c k).
Proof.
  intros Hwf Hrc Hk Hfull i j Hij. rewrite get_set by done.
  destruct (decide _); auto.
Qed.

(** What the units say about [isValid]. *)
Lemma isValid_false_units (b : Board) (r c k : Z) :
  isValid b r c k = false ↔
  In k (row b r) ∨ In k (col b c) ∨
  In k (block b (3 * (r ÷ 3)) (3 * (c ÷ 3))).
Proof.
  rewrite isValid_false_iff, in_row, in_col, in_block. split.
  - intros [(i & Hi & [Hk|Hk])|Hblk]; eauto.
  - intros [(i & Hi & Hk)|[(i & Hi & Hk)|Hblk]]; eauto.
Qed.

(** ** The example boards *)

Lemma solved7_full : full solved7.
Proof. by apply fullb_spec. Qed.

Lemma corner_missing_wf : wf corner_missing.
Proof. by apply wfb_spec. Qed.

Lemma corner_missing_others (i j : Z) :
  in_range i j → (i, j) ≠ (0, 0) → get corner_missing i j ≠ 0.
Proof.
  intros Hij Hne. unfold corner_missing.
  rewrite get_set_ne; [by apply solved7_full|unfold in_range in *; lia..|done].
Qed.

Lemma corner_missing_only (i j : Z) :
  empty_cell corner_missing i j → (i, j) = (0, 0).
Proof.
  intros [Hij H0]. destruct (decide ((i, j) = (0, 0))) as [|Hne]; [done|].
  by destruct (corner_missing_others i j).
Qed.

Lemma corner_missing_completion : completion corner_missing solved7.
Proof.
  split; [by apply wfb_spec|]. split; [by apply solvedb_spec|].
  intros i j Hij Hnz. unfold corner_missing in *.
  destruct (decide ((i, j) = (0, 0))) as [[= -> ->]|Hne]; [done|].
  rewrite get_set_ne; [done|unfold in_range in *; lia..|done].
Qed.

(** [solved7] is the only completion of [corner_missing]. *)
Lemma corner_missing_unique (s : Board) :
  completion corner_missing s → s = solved7.
Proof.
  intros (Hwf & Hs & Hk).
  apply board_ext; [done|by apply wfb_spec|]. intros i j Hij.
  destruct (decide ((i, j) = (0, 0))) as [[= -> ->]|Hne].
  - pose proof (solved_digit s 0 0 Hs Hij) as Hd.
    assert (∀ j, 1 ≤ j < 9 → get s 0 0 ≠ get corner_missing 0 j) as Hrow.
    { intros j Hj.
      assert (in_range 0 j) as H0j by (unfold in_range; lia).
      assert ((0, j) ≠ (0, 0)) as Hne by (intros [= ?]; lia).
      rewrite <- (Hk 0 j H0j (corner_missing_others 0 j H0j Hne)).
      apply (solved_no_conflict s Hs); try done; [by left|lia]. }
    pose proof (Hrow 1 ltac:(lia)) as H1. pose proof (Hrow 2 ltac:(lia)) as H2.
    pose proof (Hrow 3 ltac:(lia)) as H3. pose proof (Hrow 4 ltac:(lia)) as H4.
    pose proof (Hrow 5 ltac:(lia)) as H5. pose proof (Hrow 6 ltac:(lia)) as H6.
    pose proof (Hrow 7 ltac:(lia)) as H7. pose proof (Hrow 8 ltac:(lia)) as H8.
    change (get corner_missing 0 1) with 3 in H1.
    change (get corner_missing 0 2) with 4 in H2.
    change (get corner_missing 0 3) with 6 in H3.
    change (get corner_missing 0 4) with 5 in H4.
    change (get corner_missing 0 5) with 8 in H5.
    change (get corner_missing 0 6) with 9 in H6.
    change (get corner_missing 0 7) with 1 in H7.
    change (get corner_missing 0 8) with 2 in H8.
    change (get solved7 0 0) with 7. lia.
  - rewrite (Hk i j Hij (corner_missing_others i j Hij Hne)).
    unfold corner_missing.
    rewrite get_set_ne; [done|unfold in_range in *; lia..|done].
Qed.

(** ** The scan visits the cells in row-major order *)

Lemma scan_cell_pos (b : Board) (r c : Z) (st : scan_state) :
  in_range r c → scan_pos_inv b (9 * r + c) st →
  match scan_cell b r c st with
  | Return v => scan_pos_ret b v
  | Continue st' => scan_pos_inv b (9 * r + c + 1) st'
  end.
Proof.
  intros Hrc Hinv. destruct st as [[m br] bc]. unfold scan_cell.
  pose proof (countOptions_range b r c) as Hn.
  assert (∀ i j, in_range i j → 9 * i + j < 9 * r + c + 1 →
                 9 * i + j < 9 * r + c ∨ (i = r ∧ j = c)) as Hpos.
  { unfold in_range in *. intros i j Hij Hlt. lia. }
  unfold scan_pos_inv, scan_pos_ret in *.
  destruct (get b r c =? 0) eqn:E0.
  - apply Z.eqb_eq in E0.
    assert (empty_cell b r c) as Hrc0 by done.
    destruct (countOptions b r c <? m) eqn:Elt.
    + apply Z.ltb_lt in Elt.
      destruct (countOptions b r c =? 1) eqn:E1.
      * apply Z.eqb_eq in E1. do 3 (split; [done|]).
        intros i j [Hij Hz] Hlt.
        destruct Hinv as [(_ & _ & _ & H)|(_ & _ & -> & _ & H)].
        -- by destruct (H i j).
        -- destruct (H i j Hij Hlt Hz) as [Hle _]. lia.
      * apply Z.eqb_neq in E1. right.
        split; [done|]. split; [lia|]. do 2 (split; [done|]).
        intros i j Hij Hlt Hz.
        destruct (Hpos i j Hij Hlt) as [Hlt'|[-> ->]]; [|lia].
        destruct Hinv as [(_ & _ & _ & H)|(_ & _ & -> & _ & H)].
        -- by destruct (H i j).
        -- destruct (H i j Hij Hlt' Hz) as [Hle _]. lia.
    + apply Z.ltb_ge in Elt.
      destruct Hinv as [(-> & -> & -> & H)|(He & Hb & -> & H1 & H)].
      * unfold INT_MAX in Elt. lia.
      * right. split; [done|]. split; [lia|]. do 2 (split; [done|]).
        intros i j Hij Hlt Hz.
        destruct (Hpos i j Hij Hlt) as [Hlt'|[-> ->]]; [auto|].
        split; lia.
  - apply Z.eqb_neq in E0.
    destruct Hinv as [(-> & -> & -> & H)|(He & Hb & -> & H1 & H)];
      [left|right].
    + do 3 (split; [done|]). intros i j Hij Hlt.
      destruct (Hpos i j Hij Hlt) as [Hlt'|[-> ->]]; auto.
    + split; [done|]. split; [lia|]. do 2 (split; [done|]).
      intros i j Hij Hlt Hz.
      destruct (Hpos i j Hij Hlt) as [Hlt'|[-> ->]]; [auto|done].
Qed.

Lemma scan_cols_pos (b : Board) (r : Z) (n : nat) :
  0 ≤ r < 9 →
  ∀ c st, 0 ≤ c → c + Z.of_nat n = 9 → scan_pos_inv b (9 * r + c) st →
  match scan_cols b r (seqZ c (Z.of_nat n)) st with
  | Return v => scan_pos_ret b v
  | Continue st' => scan_pos_inv b (9 * r + 9) st'
  end.
Proof.
  intros Hr. induction n as [|n IH]; intros c st Hc Hn Hinv.
  - simpl. by replace (9 * r + 9) with (9 * r + c) by lia.
  - rewrite seqZ_cons by lia. cbn [scan_cols].
    assert (in_range r c) as Hrc by (unfold in_range; lia).
    pose proof (scan_cell_pos b r c st Hrc Hinv) as Hcell.
    destruct (scan_cell b r c st) as [v|st']; [done|].
    replace (Z.pred (Z.of_nat (S n))) with (Z.of_nat n) by lia.
    apply IH; [lia|lia|].
    by replace (9 * r + Z.succ c) with (9 * r + c + 1) by lia.
Qed.

Lemma scan_rows_pos (b : Board) (n : nat) :
  ∀ r st, 0 ≤ r → r + Z.of_nat n = 9 → scan_pos_inv b (9 * r) st →
  match scan_rows b (seqZ r (Z.of_nat n)) st with
  | Return v => scan_pos_ret b v
  | Continue st' => scan_pos_inv b 81 st'
  end.
Proof.
  induction n as [|n IH]; intros r st Hr Hn Hinv.
  - simpl. by replace 81 with (9 * r) by lia.
  - rewrite seqZ_cons by lia. cbn [scan_rows].
    pose proof (scan_cols_pos b r 9 ltac:(lia) 0 st ltac:(lia) ltac:(lia))
      as Hcols.
    change (seqZ 0 (Z.of_nat 9)) with (seqZ 0 9) in Hcols.
    rewrite Z.add_0_r in Hcols. specialize (Hcols Hinv).
    destruct (scan_cols b r (seqZ 0 9) st) as [v|st']; [done|].
    replace (Z.pred (Z.of_nat (S n))) with (Z.of_nat n) by lia.
    apply IH; [lia|lia|].
    by replace (9 * Z.succ r) with (9 * r + 9) by lia.
Qed.

Lemma findNextCell_first (b : Board) (r c n : Z) :
  findNextCell b = (r, c, n) → in_range r c →
  ∀ i j, empty_cell b i j → 9 * i + j < 9 * r + c → n < countOptions b i j.
Proof.
  unfold findNextCell.
  pose proof (scan_rows_pos b 9 0 (INT_MAX, -1, -1)
                ltac:(lia) ltac:(lia)) as H.
  change (seqZ 0 (Z.of_nat 9)) with (seqZ 0 9) in H.
  assert (scan_pos_inv b (9 * 0) (INT_MAX, -1, -1)) as Hinit.
  { left. do 3 (split; [done|]). unfold in_range. intros; lia. }
  specialize (H Hinit).
  destruct (scan_rows b (seqZ 0 9) (INT_MAX, -1, -1)) as [v|[[m br] bc]].
  - intros -> Hrc. destruct H as (_ & _ & -> & H). done.
  - destruct H as [(-> & -> & -> & H)|(He & Hb & -> & H1 & H)].
    + cbn. intros [= <- <- <-] [? _]. lia.
    + destruct He as [[Hr Hc] H0].
      assert ((br =? -1) && (bc =? -1) = false) as ->.
      { apply andb_false_iff. left. apply Z.eqb_neq. lia. }
      intros [= <- <- <-] _ i j [Hij Hz] Hlt.
      apply (H i j); try done. unfold in_range in *. lia.
Qed.

(** The early exit: a visited empty cell with exactly one option that did
    not end the scan was preceded by a cell without options. *)
Lemma scan_cell_exit (b : Board) (r c : Z) (st : scan_state) :
  in_range r c → scan_pos_inv b (9 * r + c) st →
  scan_exit_inv b (9 * r + c) st →
  match scan_cell b r c st with
  | Return v => True
  | Continue st' => scan_exit_inv b (9 * r + c + 1) st'
  end.
Proof.
  intros Hrc Hinv Hex. destruct st as [[m br] bc]. unfold scan_cell.
  pose proof (countOptions_range b r c) as Hn.
  assert (∀ i j, in_range i j → 9 * i + j < 9 * r + c + 1 →
                 9 * i + j < 9 * r + c ∨ (i = r ∧ j = c)) as Hpos.
  { unfold in_range in *. intros i j Hij Hlt. lia. }
  unfold scan_pos_inv, scan_exit_inv in *.
  destruct (get b r c =? 0) eqn:E0.
  - apply Z.eqb_eq in E0.
    destruct (countOptions b r c <? m) eqn:Elt.
    + apply Z.ltb_lt in Elt.
      destruct (countOptions b r c =? 1) eqn:E1; [done|].
      apply Z.eqb_neq in E1. intros i j Hij Hlt Hz H1.
      destruct (Hpos i j Hij Hlt) as [Hlt'|[-> ->]]; [|done].
      destruct (Hex i j Hij Hlt' Hz H1) as [-> _]. lia.
    + apply Z.ltb_ge in Elt. intros i j Hij Hlt Hz H1.
      destruct (Hpos i j Hij Hlt) as [Hlt'|[-> ->]]; [auto|].
      destruct Hinv as [(-> & -> & -> & H)|(He & Hb & -> & Hm1 & H)].
      * unfold INT_MAX in Elt. lia.
      * pose proof (countOptions_range b br bc). split; lia.
  - apply Z.eqb_neq in E0. intros i j Hij Hlt Hz H1.
    destruct (Hpos i j Hij Hlt) as [Hlt'|[-> ->]]; [auto|done].
Qed.

Lemma scan_cols_exit (b : Board) (r : Z) (n : nat) :
  0 ≤ r < 9 →
  ∀ c st, 0 ≤ c → c + Z.of_nat n = 9 → scan_pos_inv b (9 * r + c) st →
  scan_exit_inv b (9 * r + c) st →
  match scan_cols b r (seqZ c (Z.of_nat n)) st with
  | Return v => True
  | Continue st' => scan_exit_inv b (9 * r + 9) st'
  end.
Proof.
  intros Hr. induction n as [|n IH]; intros c st Hc Hn Hinv Hex.
  - simpl. by replace (9 * r + 9) with (9 * r + c) by lia.
  - rewrite seqZ_cons by lia. cbn [scan_cols].
    assert (in_range r c) as Hrc by (unfold in_range; lia).
    pose proof (scan_cell_pos b r c st Hrc Hinv) as Hcell.
    pose proof (scan_cell_exit b r c st Hrc Hinv Hex) as Hcex.
    destruct (scan_cell b r c st) as [v|st']; [done|].
    replace (Z.pred (Z.of_nat (S n))) with (Z.of_nat n) by lia.
    apply IH; [lia|lia| |].
    + by replace (9 * r + Z.succ c) with (9 * r + c + 1) by lia.
    + by replace (9 * r + Z.succ c) with (9 * r + c + 1) by lia.
Qed.

Lemma scan_rows_exit (b : Board) (n : nat) :
  ∀ r st, 0 ≤ r → r + Z.of_nat n = 9 → scan_pos_inv b (9 * r) st →
  scan_exit_inv b (9 * r) st →
  match scan_rows b (seqZ r (Z.of_nat n)) st with
  | Return v => True
  | Continue st' => scan_exit_inv b 81 st'
  end.
Proof.
  induction n as [|n IH]; intros r st Hr Hn Hinv Hex.
  - simpl. by replace 81 with (9 * r) by lia.
  - rewrite seqZ_cons by lia. cbn [scan_rows].
    pose proof (scan_cols_pos b r 9 ltac:(lia) 0 st ltac:(lia) ltac:(lia))
      as Hcols.
    pose proof (scan_cols_exit b r 9 ltac:(lia) 0 st ltac:(lia) ltac:(lia))
      as Hcex.
    change (seqZ 0 (Z.of_nat 9)) with (seqZ 0 9) in Hcols, Hcex.
    rewrite Z.add_0_r in Hcols, Hcex.
    specialize (Hcols Hinv). specialize (Hcex Hinv Hex).
    destruct (scan_cols b r (seqZ 0 9) st) as [v|st']; [done|].
    replace (Z.pred (Z.of_nat (S n))) with (Z.of_nat n) by lia.
    apply IH; [lia|lia| |].
    + by replace (9 * Z.succ r) with (9 * r + 9) by lia.
    + by replace (9 * Z.succ r) with (9 * r + 9) by lia.
Qed.

(** If the selector returns an option count other than 1, every empty cell
    with exactly one option comes after the returned cell, and the returned
    count is 0. *)
Lemma findNextCell_no_exit (b : Board) (r c n : Z) :
  findNextCell b = (r, c, n) → n ≠ 1 →
  ∀ i j, empty_cell b i j → countOptions b i j = 1 →
         n = 0 ∧ 9 * r + c < 9 * i + j.
Proof.
  unfold findNextCell.
  assert (scan_pos_inv b (9 * 0) (INT_MAX, -1, -1)) as Hinit.
  { left. do 3 (split; [done|]). unfold in_range. intros; lia. }
  assert (scan_exit_inv b (9 * 0) (INT_MAX, -1, -1)) as Hinit'.
  { unfold scan_exit_inv, in_range. intros; lia. }
  pose proof (scan_rows_pos b 9 0 (INT_MAX, -1, -1)
                ltac:(lia) ltac:(lia) Hinit) as H.
  pose proof (scan_rows_exit b 9 0 (INT_MAX, -1, -1)
                ltac:(lia) ltac:(lia) Hinit Hinit') as Hex.
  change (seqZ 0 (Z.of_nat 9)) with (seqZ 0 9) in H, Hex.
  destruct (scan_rows b (seqZ 0 9) (INT_MAX, -1, -1)) as [v|[[m br] bc]].
  - intros -> Hn1. destruct H as (_ & _ & -> & _). done.
  - unfold scan_exit_inv in Hex.
    destruct H as [(-> & -> & -> & H)|(He & Hb & -> & H1 & H)].
    + cbn. intros [= <- <- <-] _ i j [Hij Hz] Hone.
      destruct (H i j Hij); [unfold in_range in Hij; lia|done].
    + destruct He as [[Hr Hc] H0].
      assert ((br =? -1) && (bc =? -1) = false) as ->.
      { apply andb_false_iff. left. apply Z.eqb_neq. lia. }
      intros [= <- <- <-] _ i j [Hij Hz] Hone.
      apply (Hex i j); try done. unfold in_range in Hij. lia.
Qed.

(** * The claims *)

(** ** C3: isValid *)

(** C3.  For every board, row [r], column [c] and digit [k] (in particular
    for [r], [c] in 0-8 and [k] in 1-9), [isValid] returns [false] exactly
    when [k] occurs in row [r], in column [c] or in the 3x3 block with
    origin [(3 * (r / 3), 3 * (c / 3))], and [true] otherwise.  [isValid] is
    a function of the board that returns only a [bool]: the source has no
    assignment to [BOARD] in it, so the board is not modified. *)
Theorem isValid_correct (b : Board) (r c k : Z) :
  (isValid b r c k = false ↔
   In k (row b r) ∨ In k (col b c) ∨
   In k (block b (3 * (r ÷ 3)) (3 * (c ÷ 3)))) ∧
  (isValid b r c k = true ↔
   ¬ (In k (row b r) ∨ In k (col b c) ∨
      In k (block b (3 * (r ÷ 3)) (3 * (c ÷ 3))))).
Proof.
  pose proof (isValid_false_units b r c k) as H.
  split; [done|]. rewrite <- H. by destruct (isValid b r c k).
Qed.

(** ** C6: digit 0 at an empty cell *)

(** C6 as stated fails: on the all-empty grid, [isValid] rejects digit 0 at
    the empty cell (0,0). *)
Lemma isValid_zero_collides :
  wf empty_board ∧ values_ok empty_board ∧ empty_cell empty_board 0 0 ∧
  isValid empty_board 0 0 0 = false.
Proof.
  split; [by apply wfb_spec|].
  split; [by apply values_okb_spec|].
  split; [|reflexivity]. split; [unfold in_range; lia|reflexivity].
Qed.

(** C6, amended.  For every board and every empty cell [(r, c)],
    [isValid(grid, r, c, 0)] returns [false]: the cell's own 0 in row [r]
    equals the queried digit. *)
Theorem isValid_zero_at_empty_cell (b : Board) (r c : Z) :
  0 ≤ r < 9 → 0 ≤ c < 9 → get b r c = 0 → isValid b r c 0 = false.
Proof. intros Hr Hc H0. by apply isValid_zero_empty. Qed.

Lemma isValid_zero_at_empty_cell_witness : isValid puzzle 0 2 0 = false.
Proof.
  apply (isValid_zero_at_empty_cell puzzle 0 2); [lia|lia|reflexivity].
Defined.

(** ** C1: a successful search leaves a solved grid *)

(** C1 as stated fails: both solvers return [true] on a completely filled
    grid with values in 0-9 that repeats 3 in its first row, and leave it
    as it is; the filled cells of the input are never checked. *)
Lemma solvers_accept_repeated_digit :
  wf repeated_board ∧ values_ok repeated_board ∧
  solveBoard 91 repeated_board 0 0 = Some (true, repeated_board) ∧
  solveBoardEfficient 82 repeated_board = Some (true, repeated_board) ∧
  ¬ solved repeated_board.
Proof.
  split; [by apply wfb_spec|].
  split; [by apply values_okb_spec|].
  split; [by vm_compute|]. split; [by vm_compute|].
  intros [Hrows _]. destruct (Hrows 0) as [Hrow _]; [lia|].
  specialize (Hrow 3). vm_compute in Hrow.
  assert (2 = 1)%nat as Habs by (apply Hrow; by split).
  discriminate Habs.
Qed.

(** C1, amended.  For every 9x9 grid with values in 0-9 in which no digit is
    repeated among the filled cells of a row, a column or a block, if
    [solveBoard(grid, 0, 0)] or [solveBoardEfficient(grid)] returns [true],
    then in the resulting grid every row, column and block contains each
    digit 1-9 exactly once, and every cell that was filled in the input
    still holds its value. *)
Theorem solvers_sound (fuel : nat) (b b' : Board) :
  wf b → values_ok b → no_conflict b →
  solveBoard fuel b 0 0 = Some (true, b') ∨
  solveBoardEfficient fuel b = Some (true, b') →
  wf b' ∧ solved b' ∧ keeps_givens b b'.
Proof.
  intros Hwf Hval Hnc [H|H].
  - apply solveBoard_true in H as (Hg & Hk & Hfull); [|done|lia|lia].
    split; [apply Hg|]. split; [|done].
    apply good_full_solved; [done|].
    intros i j Hij. apply Hfull; [done|]. unfold in_range in Hij. lia.
  - apply solveBoardEfficient_true in H as (Hg & Hk & Hfull); [|done].
    split; [apply Hg|]. split; [|done]. by apply good_full_solved.
Qed.

Lemma solvers_sound_witness :
  wf solved_board ∧ solved solved_board ∧ keeps_givens puzzle solved_board.
Proof.
  apply (solvers_sound 91 puzzle solved_board).
  - by apply wfb_spec.
  - by apply values_okb_spec.
  - by apply no_conflictb_spec.
  - left. by vm_compute.
Defined.

(** ** C2: a failed search restores the grid *)

(** C2.  For every 9x9 grid both solvers return (91 and 82 nested
    activations are enough), and if [solveBoard(grid, 0, 0)] or
    [solveBoardEfficient(grid)] returns [false], the grid it leaves is the
    input grid. *)
Theorem solvers_restore_on_failure (b : Board) :
  wf b →
  is_Some (solveBoard 91 b 0 0) ∧ is_Some (solveBoardEfficient 82 b) ∧
  ∀ fuel b',
    solveBoard fuel b 0 0 = Some (false, b') ∨
    solveBoardEfficient fuel b = Some (false, b') →
    b' = b.
Proof.
  intros Hwf. split; [|split].
  - apply solveBoard_terminates; [done|lia|lia|]. by vm_compute.
  - apply solveBoardEfficient_terminates; [done|].
    pose proof (count_empty_le b Hwf). lia.
  - intros fuel b' [H|H].
    + by apply solveBoard_restores in H; [|done|lia|lia].
    + by apply solveBoardEfficient_restores in H.
Qed.

Lemma solvers_restore_on_failure_witness :
  solveBoard 91 stuck_board 0 0 = Some (false, stuck_board) ∧
  solveBoardEfficient 82 stuck_board = Some (false, stuck_board).
Proof.
  assert (wf stuck_board) as Hwf by (by apply wfb_spec).
  destruct (solvers_restore_on_failure stuck_board Hwf) as (_ & _ & H).
  split.
  - destruct (solveBoard 91 stuck_board 0 0) as [[[] b1]|] eqn:E;
      [by vm_compute in E| |by vm_compute in E].
    f_equal. f_equal. apply (H 91%nat). by left.
  - destruct (solveBoardEfficient 82 stuck_board) as [[[] b1]|] eqn:E;
      [by vm_compute in E| |by vm_compute in E].
    f_equal. f_equal. apply (H 82%nat). by right.
Defined.

(** ** C8: fully filled grids *)

(** C8.  On a grid without empty cells [findNextCell] returns the sentinel
    [(-1, -1, 0)], and [solveBoardEfficient] returns [true] from its first
    activation and leaves the grid as it is. *)
Theorem full_board_sentinel (b : Board) :
  full b →
  findNextCell b = (-1, -1, 0) ∧
  ∀ fuel, solveBoardEfficient (S fuel) b = Some (true, b).
Proof.
  intros Hfull. split; [by apply findNextCell_full|].
  intros fuel. by apply solveBoardEfficient_full.
Qed.

Lemma full_board_sentinel_witness :
  findNextCell solved_board = (-1, -1, 0) ∧
  ∀ fuel, solveBoardEfficient (S fuel) solved_board = Some (true, solved_board).
Proof. apply (full_board_sentinel solved_board). by apply fullb_spec. Defined.

(** ** C9: termination and recursion depth *)

(** C9 as stated fails for the row-major solver: [solveBoard] also recurses
    on every filled cell and at every end of row, so on a completely filled
    grid 82 nested activations (the first call and 81 recursive calls), and
    even 90, are not enough; the 91st returns. *)
Lemma solveBoard_depth_exceeds_81 :
  wf solved_board ∧
  solveBoard 82 solved_board 0 0 = None ∧
  solveBoard 90 solved_board 0 0 = None ∧
  solveBoard 91 solved_board 0 0 = Some (true, solved_board).
Proof.
  split; [by apply wfb_spec|]. repeat split; by vm_compute.
Qed.

(** C9, amended.  Every invocation of [solveBoard(grid, 0, 0)] and of
    [solveBoardEfficient(grid)] on a 9x9 grid terminates.  The row-major
    solver needs at most 91 nested activations (90 recursive calls below
    the first: one per cell, one per end of row); the heuristic solver
    needs at most one more than the number of empty cells, hence at most 82
    (81 recursive calls below the first), since each of its recursive calls
    consumes one empty cell. *)
Theorem solvers_terminate (b : Board) :
  wf b →
  (∀ fuel, (91 ≤ fuel)%nat → is_Some (solveBoard fuel b 0 0)) ∧
  (∀ fuel, (count_empty b < fuel)%nat →
           is_Some (solveBoardEfficient fuel b)) ∧
  (count_empty b ≤ 81)%nat.
Proof.
  intros Hwf. split; [|split].
  - intros fuel Hf. apply solveBoard_terminates; [done|lia|lia|].
    by vm_compute.
  - intros fuel Hf. by apply solveBoardEfficient_terminates.
  - by apply count_empty_le.
Qed.

Lemma solvers_terminate_witness :
  is_Some (solveBoard 91 empty_board 0 0) ∧
  is_Some (solveBoardEfficient 82 empty_board).
Proof.
  assert (wf empty_board) as Hwf by (by apply wfb_spec).
  destruct (solvers_terminate empty_board Hwf) as (H1 & H2 & H3).
  split; [apply H1; lia|apply H2; lia].
Defined.

(** The bound of the heuristic solver is reached on the all-empty grid. *)
Example solveBoardEfficient_depth_empty_board :
  count_empty empty_board = 81%nat ∧
  solveBoardEfficient 81 empty_board = None ∧
  is_Some (solveBoardEfficient 82 empty_board).
Proof. repeat split; [by vm_compute..|]. by vm_compute; eauto. Qed.

(** ** C4: both solvers find a completion when there is one *)

(** C4.  For every 9x9 grid with a valid completion [s], [solveBoard(grid,
    0, 0)] and [solveBoardEfficient(grid)] both return [true] and each
    leaves a valid completion of the grid; and if [s] is the only valid
    completion, both leave exactly [s]. *)
Theorem solvers_complete (b s : Board) :
  wf b → completion b s →
  ∃ s1 s2,
    (∀ fuel, (91 ≤ fuel)%nat → solveBoard fuel b 0 0 = Some (true, s1)) ∧
    completion b s1 ∧
    (∀ fuel, (82 ≤ fuel)%nat → solveBoardEfficient fuel b = Some (true, s2)) ∧
    completion b s2 ∧
    ((∀ s', completion b s' → s' = s) → s1 = s ∧ s2 = s).
Proof.
  intros Hwf Hcomp.
  pose proof (solvable_good b s Hwf Hcomp) as Hg.
  destruct (solveBoard_complete 91 b 0 0 s) as [s1 H1];
    [done|lia|lia|by vm_compute|done|].
  destruct (solveBoardEfficient_complete 82 b s) as [s2 H2];
    [done|pose proof (count_empty_le b Hwf); lia|done|].
  assert (completion b s1) as Hc1.
  { apply solveBoard_true in H1 as (Hg1 & Hk1 & Hf1); [|done|lia|lia].
    split; [apply Hg1|]. split; [|done].
    apply good_full_solved; [done|].
    intros i j Hij. apply Hf1; [done|]. unfold in_range in Hij. lia. }
  assert (completion b s2) as Hc2.
  { apply solveBoardEfficient_true in H2 as (Hg2 & Hk2 & Hf2); [|done].
    split; [apply Hg2|]. split; [|done]. by apply good_full_solved. }
  exists s1, s2. split; [|split; [done|split; [|split; [done|]]]].
  - intros fuel Hf. by apply (solveBoard_mono 91 fuel).
  - intros fuel Hf. by apply (solveBoardEfficient_mono 82 fuel).
  - intros Huniq. split; by apply Huniq.
Qed.

Lemma solvers_complete_witness :
  solveBoard 91 corner_missing 0 0 = Some (true, solved7) ∧
  solveBoardEfficient 82 corner_missing = Some (true, solved7).
Proof.
  destruct (solvers_complete corner_missing solved7 corner_missing_wf
              corner_missing_completion)
    as (s1 & s2 & H1 & _ & H2 & _ & Hu).
  destruct (Hu corner_missing_unique) as [<- <-].
  split; [apply H1|apply H2]; lia.
Defined.

(** ** C7: the option count of findNextCell *)

(** C7.  For every empty cell [(r, c)] of a board, digit 0 is rejected there
    (the cell's own 0 collides), the option count that [findNextCell]
    computes is the number of digits [k] in 1-8 that [isValid] accepts (9 is
    never tried), this is the count [findNextCell] returns when it returns
    [(r, c)], and a cell whose only legal digit is 9 gets option count 0. *)
Theorem options_counted_over_1_to_8 (b : Board) (r c : Z) :
  0 ≤ r < 9 → 0 ≤ c < 9 → get b r c = 0 →
  isValid b r c 0 = false ∧
  countOptions b r c = legal_count_1_8 b r c ∧
  (∀ n, findNextCell b = (r, c, n) → n = legal_count_1_8 b r c) ∧
  ((∀ k, 1 ≤ k ≤ 9 → (isValid b r c k = true ↔ k = 9)) →
   countOptions b r c = 0).
Proof.
  intros Hr Hc H0. assert (empty_cell b r c) as He by done.
  split; [by apply isValid_zero_empty|].
  split; [by apply countOptions_empty|]. split.
  - intros n Hf.
    apply findNextCell_spec in Hf as [(_ & -> & _)|(_ & -> & _)]; [lia|].
    by apply countOptions_empty.
  - by apply countOptions_only_nine.
Qed.

Lemma nine_missing_only_nine (k : Z) :
  1 ≤ k ≤ 9 → (isValid nine_missing 0 6 k = true ↔ k = 9).
Proof.
  intros Hk.
  assert (k = 1 ∨ k = 2 ∨ k = 3 ∨ k = 4 ∨ k = 5 ∨ k = 6 ∨ k = 7 ∨ k = 8 ∨
          k = 9) as H by lia.
  repeat destruct H as [->|H]; try subst k; by vm_compute.
Qed.

Lemma options_counted_over_1_to_8_witness :
  legal_count nine_missing 0 6 = 1 ∧
  countOptions nine_missing 0 6 = 0 ∧
  findNextCell nine_missing = (0, 6, 0).
Proof.
  destruct (options_counted_over_1_to_8 nine_missing 0 6)
    as (_ & _ & _ & H9); [lia|lia|reflexivity|].
  split; [reflexivity|]. split; [apply H9, nine_missing_only_nine|].
  reflexivity.
Defined.

(** ** C5: cells with a single legal digit *)

(** C5 as stated fails: in [stuck_board] the empty cell (8,8) has exactly
    one legal digit, yet [findNextCell] returns cell (0,0) with option
    count 0: a cell without any option is scanned first and nothing later
    can undercut it. *)
Lemma findNextCell_prefers_dead_cell :
  wf stuck_board ∧ values_ok stuck_board ∧
  empty_cell stuck_board 8 8 ∧ legal_count stuck_board 8 8 = 1 ∧
  legal_count stuck_board 0 0 = 0 ∧
  findNextCell stuck_board = (0, 0, 0).
Proof.
  split; [by apply wfb_spec|].
  split; [by apply values_okb_spec|].
  split; [split; [unfold in_range; lia|reflexivity]|].
  repeat split; reflexivity.
Qed.

(** C5, amended.  Let [(r, c)] be an empty cell with exactly one legal digit
    among 1-9, at which 9 is not legal.  If no empty cell before [(r, c)]
    in row-major order has zero legal digits, and 9 is not legal at any of
    them, then [findNextCell] returns, whatever the cells after [(r, c)]
    hold (this is its early exit), the first empty cell in row-major order
    that has exactly one legal digit, with option count 1.  And if
    [(r, c)] is the only empty cell of the grid, [findNextCell] returns it
    together with its number of legal digits. *)
Theorem findNextCell_single_option (b : Board) (r c : Z) :
  empty_cell b r c → isValid b r c 9 = false →
  (legal_count b r c = 1 →
   (∀ i j, empty_cell b i j → 9 * i + j < 9 * r + c →
           isValid b i j 9 = false ∧ legal_count b i j ≠ 0) →
   ∃ r' c', findNextCell b = (r', c', 1) ∧ empty_cell b r' c' ∧
            legal_count b r' c' = 1 ∧ 9 * r' + c' ≤ 9 * r + c ∧
            ∀ i j, empty_cell b i j → 9 * i + j < 9 * r' + c' →
                   1 < legal_count b i j) ∧
  ((∀ i j, empty_cell b i j → (i, j) = (r, c)) →
   findNextCell b = (r, c, legal_count b r c)).
Proof.
  intros He H9.
  assert (∀ i j, empty_cell b i j → isValid b i j 9 = false →
                 countOptions b i j = legal_count b i j) as Hcount.
  { intros i j Hij Hi9.
    rewrite legal_count_split, Hi9, (countOptions_empty b i j Hij). lia. }
  split.
  - intros H1 Hbefore.
    assert (countOptions b r c = 1) as Hone by (by rewrite Hcount).
    destruct (findNextCell b) as [[r' c'] n] eqn:Ef.
    pose proof (findNextCell_spec b r' c' n Ef) as
      [(Hfull & _)|(He' & Hn & _)].
    { destruct He as [Hrc H0]. by destruct (Hfull r c Hrc). }
    pose proof (findNextCell_first b r' c' n Ef (proj1 He')) as Hfirst.
    assert (n = 1) as ->.
    { destruct (decide (n = 1)) as [|Hn1]; [done|].
      destruct (findNextCell_no_exit b r' c' n Ef Hn1 r c He Hone)
        as [-> Hlt].
      destruct (Hbefore r' c' He' Hlt) as [H9' Hne].
      rewrite <- (Hcount r' c' He' H9'), <- Hn in Hne. done. }
    assert (9 * r' + c' ≤ 9 * r + c) as Hle.
    { destruct (decide (9 * r' + c' ≤ 9 * r + c)) as [|Hgt]; [done|].
      specialize (Hfirst r c He ltac:(lia)). lia. }
    assert (∀ i j, empty_cell b i j → 9 * i + j < 9 * r' + c' →
                   1 < legal_count b i j) as Hfirst'.
    { intros i j Hij Hlt.
      destruct (Hbefore i j Hij ltac:(lia)) as [H9' _].
      rewrite <- (Hcount i j Hij H9'). by apply Hfirst. }
    exists r', c'. do 2 (split; [done|]). split; [|done].
    destruct (decide (9 * r' + c' = 9 * r + c)) as [Heq|Hneq].
    + destruct He as [[? ?] _], He' as [[? ?] _].
      assert (r' = r) as -> by lia. assert (c' = c) as -> by lia. done.
    + destruct (Hbefore r' c' He' ltac:(lia)) as [H9' _].
      by rewrite <- (Hcount r' c' He' H9').
  - intros Honly.
    rewrite (findNextCell_single b r c He Honly). by rewrite Hcount.
Qed.

Lemma early_exit_board_before (i j : Z) :
  empty_cell early_exit_board i j → 9 * i + j < 9 * 0 + 8 →
  isValid early_exit_board i j 9 = false ∧
  legal_count early_exit_board i j ≠ 0.
Proof.
  intros [[Hi Hj] Hz] Hlt.
  assert (i = 0) as -> by lia.
  assert (j = 0 ∨ j = 1 ∨ j = 2 ∨ j = 3 ∨ j = 4 ∨ j = 5 ∨ j = 6 ∨ j = 7)
    as H by lia.
  repeat destruct H as [->|H]; try subst j;
    try (vm_compute in Hz; discriminate Hz); by vm_compute.
Qed.

(** On [early_exit_board] the scan stops at (0,8), although cell (8,1),
    further on, has no legal digit. *)
Lemma findNextCell_single_option_witness :
  findNextCell early_exit_board = (0, 8, 1) ∧
  legal_count early_exit_board 0 0 = 2 ∧
  legal_count early_exit_board 0 1 = 3 ∧
  empty_cell early_exit_board 8 1 ∧ legal_count early_exit_board 8 1 = 0.
Proof.
  assert (empty_cell early_exit_board 0 8) as He
    by (split; [unfold in_range; lia|reflexivity]).
  destruct (findNextCell_single_option early_exit_board 0 8 He eq_refl)
    as [H _].
  destruct (H eq_refl early_exit_board_before)
    as (r' & c' & Hf & _ & _ & _ & _).
  split.
  - rewrite Hf. vm_compute in Hf. by injection Hf as <- <-.
  - split; [reflexivity|]. split; [reflexivity|].
    split; [|reflexivity]. split; [unfold in_range; lia|reflexivity].
Defined.

(** ** C10: the forced corner *)

(** C10.  For every 9x9 grid whose only empty cell is (0,0) and in which
    every digit 1-9 other than 7 occurs in row 0, column 0 or the top-left
    block while 7 occurs in none of them, [findNextCell] returns
    [(0, 0, 1)], and [solve], with either strategy, returns [true] and
    leaves the grid with 7 written into cell (0,0). *)
Theorem forced_corner_seven (b : Board) :
  wf b → get b 0 0 = 0 →
  (∀ i j, in_range i j → (i, j) ≠ (0, 0) → get b i j ≠ 0) →
  (∀ d, 1 ≤ d ≤ 9 → d ≠ 7 →
        In d (row b 0) ∨ In d (col b 0) ∨ In d (block b 0 0)) →
  ¬ (In 7 (row b 0) ∨ In 7 (col b 0) ∨ In 7 (block b 0 0)) →
  findNextCell b = (0, 0, 1) ∧
  ∀ efficient fuel, (91 ≤ fuel)%nat →
    solve fuel b efficient = Some (true, set b 0 0 7).
Proof.
  intros Hwf H0 Hothers Hin Hnot7.
  assert (in_range 0 0) as H00 by (unfold in_range; lia).
  assert (empty_cell b 0 0) as He by done.
  assert (∀ k, 1 ≤ k ≤ 9 → (isValid b 0 0 k = true ↔ k = 7)) as Hv.
  { intros k Hk. pose proof (isValid_false_units b 0 0 k) as Hu.
    change (3 * (0 ÷ 3)) with 0 in Hu.
    destruct (decide (k = 7)) as [->|Hne].
    - split; [done|]. intros _.
      destruct (isValid b 0 0 7); [done|]. destruct Hnot7. by apply Hu.
    - rewrite (proj2 Hu (Hin k Hk Hne)). split; [done|lia]. }
  assert (∀ i j, empty_cell b i j → (i, j) = (0, 0)) as Honly.
  { intros i j [Hij Hz]. destruct (decide ((i, j) = (0, 0))); [done|].
    by destruct (Hothers i j). }
  assert (findNextCell b = (0, 0, 1)) as Hf.
  { rewrite (findNextCell_single b 0 0 He Honly).
    by rewrite (countOptions_forced b 0 0 7 He). }
  assert (full (set b 0 0 7)) as Hfull by (by apply full_set).
  split; [done|]. intros efficient [|fuel] Hfuel; [lia|].
  destruct efficient; unfold solve.
  - rewrite solveBoardEfficient_S, Hf. simpl andb. cbv iota.
    apply (try_digits_forced _ 0 0 7).
    + intros k Hk. apply Hv. by apply in_digits.
    + apply in_digits. lia.
    + destruct fuel as [|fuel]; [lia|]. by apply solveBoardEfficient_full.
  - rewrite solveBoard_S. change (0 =? 9) with false. cbv iota.
    rewrite H0. simpl negb. cbv iota.
    apply (try_digits_forced _ 0 0 7).
    + intros k Hk. apply Hv. by apply in_digits.
    + apply in_digits. lia.
    + apply solveBoard_full; [lia|lia| |].
      * change (frames 0 (0 + 1)) with 90%nat. lia.
      * intros i j Hij _. by apply Hfull.
Qed.

Lemma forced_corner_seven_witness :
  findNextCell corner_missing = (0, 0, 1) ∧
  solve 91 corner_missing false = Some (true, solved7) ∧
  solve 91 corner_missing true = Some (true, solved7).
Proof.
  destruct (forced_corner_seven corner_missing) as [Hf Hs].
  - exact corner_missing_wf.
  - reflexivity.
  - exact corner_missing_others.
  - intros d Hd Hne. apply isValid_false_units.
    assert (d = 1 ∨ d = 2 ∨ d = 3 ∨ d = 4 ∨ d = 5 ∨ d = 6 ∨ d = 8 ∨ d = 9)
      as H by lia.
    repeat destruct H as [->|H]; try subst d; reflexivity.
  - intros H. apply isValid_false_units in H. discriminate H.
  - split; [exact Hf|].
    split; [apply (Hs false 91%nat)|apply (Hs true 91%nat)]; lia.
Defined.

(** * Further properties of the solver *)

(** ** Grids whose given cells may clash *)

Lemma placed_ok_refl (b : Board) : wf b → placed_ok b b.
Proof.
  intros Hwf. split; [done|]. split; [apply keeps_givens_refl|].
  intros i j _ H0 Hnz. done.
Qed.

Lemma placed_ok_trans (b1 b2 b3 : Board) :
  placed_ok b1 b2 → placed_ok b2 b3 → placed_ok b1 b3.
Proof.
  intros (Hwf2 & Hk12 & Hc12) (Hwf3 & Hk23 & Hc23).
  split; [done|]. split; [by eapply keeps_givens_trans|].
  intros i j Hij H0 Hnz.
  destruct (decide (get b2 i j = 0)) as [Hz|Hn2]; [by apply Hc23|].
  destruct (Hc12 i j Hij H0 Hn2) as [Hd Hp].
  pose proof (Hk23 i j Hij Hn2) as Heq.
  split; [by rewrite Heq|].
  intros i' j' Hij' Hne Hpeer. rewrite Heq.
  destruct (decide (get b2 i' j' = 0)) as [Hz'|Hn2'].
  - destruct (decide (get b3 i' j' = 0)) as [->|Hn3']; [lia|].
    destruct (Hc23 i' j' Hij' Hz' Hn3') as [_ Hp'].
    intros Habs. apply (Hp' i j Hij); [congruence|by apply peer_sym|].
    by rewrite Heq.
  - rewrite (Hk23 i' j' Hij' Hn2'). by apply Hp.
Qed.

Lemma placed_ok_set (b : Board) (r c k : Z) :
  wf b → empty_cell b r c → 1 ≤ k ≤ 9 → isValid b r c k = true →
  placed_ok b (set b r c k).
Proof.
  intros Hwf [Hrc H0] Hk Hv.
  rewrite isValid_true_iff in Hv by done.
  split; [by apply wf_set|]. split; [by apply keeps_givens_set|].
  intros i j Hij Hz. rewrite get_set by done.
  destruct (decide ((i, j) = (r, c))) as [[= -> ->]|Hne]; [|done].
  intros _. split; [by rewrite get_set_eq|].
  intros i' j' Hij' Hne' Hp. rewrite get_set_eq by done.
  rewrite get_set by done. destruct (decide _) as [|_]; [done|].
  by apply Hv.
Qed.

Lemma solveBoard_true_gen (fuel : nat) :
  ∀ b r c b', wf b → 0 ≤ r ≤ 9 → 0 ≤ c ≤ 9 →
    solveBoard fuel b r c = Some (true, b') →
    placed_ok b b' ∧
    (∀ i j, in_range i j → 9 * r + c ≤ 9 * i + j → get b' i j ≠ 0) ∧
    (∀ i j, in_range i j → 9 * i + j < 9 * r + c → get b' i j = get b i j).
Proof.
  induction fuel as [|fuel IH]; intros b r c b' Hwf Hr Hc; [done|].
  rewrite solveBoard_S.
  destruct (r =? 9) eqn:Er.
  { apply Z.eqb_eq in Er. intros [= <-].
    split; [by apply placed_ok_refl|]. split; [|done].
    unfold in_range. intros; lia. }
  apply Z.eqb_neq in Er.
  destruct (c =? 9) eqn:Ec.
  { apply Z.eqb_eq in Ec. intros H.
    apply IH in H as (? & Hfull & Hsame); [|done|lia|lia].
    split; [done|].
    split; intros i j Hij Hle; [apply Hfull|apply Hsame]; done || lia. }
  apply Z.eqb_neq in Ec.
  assert (in_range r c) as Hrc by (unfold in_range; lia).
  assert (∀ i j, in_range i j → (i, j) ≠ (r, c) →
                 9 * r + c ≠ 9 * i + j) as Hpos.
  { intros i j Hij Hne Heq. apply Hne. unfold in_range in *. f_equal; lia. }
  destruct (get b r c =? 0) eqn:E0; simpl negb; cbv iota.
  - apply Z.eqb_eq in E0. intros H.
    apply try_digits_true in H as (k & Hk & Hv & H); try done.
    2:{ intros b1 b2 Hwf1. apply solveBoard_restores; done || lia. }
    apply in_digits in Hk.
    apply IH in H as (Hp & Hfull & Hsame); [|by apply wf_set|lia|lia].
    assert (placed_ok b b') as Hp'.
    { eapply placed_ok_trans; [|done]. by apply placed_ok_set. }
    split; [done|]. split.
    + intros i j Hij Hle.
      destruct (decide ((i, j) = (r, c))) as [[= -> ->]|Hne].
      * destruct Hp as (_ & Hkeep & _).
        rewrite (Hkeep r c Hrc); rewrite get_set_eq; done || lia.
      * apply Hfull; [done|]. specialize (Hpos i j Hij Hne). lia.
    + intros i j Hij Hlt. rewrite Hsame by (done || lia).
      apply get_set_ne; try (unfold in_range in *; lia).
      intros [= -> ->]. lia.
  - apply Z.eqb_neq in E0. intros H.
    apply IH in H as (Hp & Hfull & Hsame); [|done|lia|lia].
    split; [done|]. split.
    + intros i j Hij Hle.
      destruct (decide ((i, j) = (r, c))) as [[= -> ->]|Hne].
      * destruct Hp as (_ & Hkeep & _). by rewrite (Hkeep r c Hrc).
      * apply Hfull; [done|]. specialize (Hpos i j Hij Hne). lia.
    + intros i j Hij Hlt. apply Hsame; done || lia.
Qed.

Lemma solveBoardEfficient_true_gen (fuel : nat) :
  ∀ b b', wf b → solveBoardEfficient fuel b = Some (true, b') →
    placed_ok b b' ∧ full b'.
Proof.
  induction fuel as [|fuel IH]; intros b b' Hwf; [done|].
  rewrite solveBoardEfficient_S.
  destruct (findNextCell b) as [[rw cl] n] eqn:Ef.
  destruct ((rw =? -1) && (cl =? -1)) eqn:Es.
  - intros [= <-].
    apply findNextCell_spec in Ef as [(Hfull & _)|([[Hr Hc] _] & _)].
    + split; [by apply placed_ok_refl|done].
    + apply andb_true_iff in Es as [Es _]. apply Z.eqb_eq in Es. lia.
  - pose proof (findNextCell_empty _ _ _ _ Ef Es) as He.
    intros H.
    apply try_digits_true in H as (k & Hk & Hv & H);
      [|apply He|apply solveBoardEfficient_restores|done|apply He].
    apply in_digits in Hk.
    apply IH in H as (Hp & Hfull); [|by apply wf_set].
    split; [|done].
    eapply placed_ok_trans; [|done]. by apply placed_ok_set.
Qed.

Lemma fills_from_isValid (p : Z) (b s : Board) (r c : Z) :
  fills_from p b s → empty_cell b r c → p ≤ 9 * r + c →
  1 ≤ get s r c ≤ 9 ∧ isValid b r c (get s r c) = true.
Proof.
  intros (Hwf & Hk & Hc) [Hrc H0] Hp.
  destruct (Hc r c Hrc Hp H0) as [Hd Hpeers]. split; [done|].
  apply isValid_true_iff; [done|]. intros i j Hij Hpeer Heq.
  destruct (decide ((i, j) = (r, c))) as [[= -> ->]|Hne]; [lia|].
  apply (Hpeers i j Hij Hne Hpeer).
  rewrite <- Heq. apply Hk; [done|lia].
Qed.

Lemma fills_from_set (p : Z) (b s : Board) (r c : Z) :
  wf b → fills_from p b s → in_range r c →
  fills_from p (set b r c (get s r c)) s.
Proof.
  intros Hwfb (Hwf & Hk & Hc) Hrc. split; [done|]. split.
  - intros i j Hij. rewrite get_set by done.
    destruct (decide _) as [[= -> ->]|Hne]; [done|]. by apply Hk.
  - intros i j Hij Hp. rewrite get_set by done.
    destruct (decide _) as [[= -> ->]|Hne]; [|by apply Hc].
    intros Hz. destruct (decide (get b r c = 0)); [by apply Hc|].
    by rewrite (Hk r c Hrc) in Hz.
Qed.

Lemma fills_from_weaken (p q : Z) (b s : Board) :
  p ≤ q → fills_from p b s → fills_from q b s.
Proof.
  intros Hpq (Hwf & Hk & Hc). do 2 (split; [done|]).
  intros i j Hij Hq. apply Hc; [done|lia].
Qed.

Lemma solveBoard_complete_gen (fuel : nat) :
  ∀ b r c s, wf b → 0 ≤ r ≤ 9 → 0 ≤ c ≤ 9 → (frames r c ≤ fuel)%nat →
    fills_from (9 * r + c) b s →
    ∃ b', solveBoard fuel b r c = Some (true, b').
Proof.
  induction fuel as [|fuel IH]; intros b r c s Hwf Hr Hc Hf Hfill.
  { unfold frames in Hf. destruct (r =? 9) eqn:Er; [lia|].
    apply Z.eqb_neq in Er. lia. }
  rewrite solveBoard_S. unfold frames in Hf.
  destruct (r =? 9) eqn:Er; [eauto|].
  apply Z.eqb_neq in Er.
  destruct (c =? 9) eqn:Ec.
  { apply Z.eqb_eq in Ec. apply (IH _ _ _ s); [done|lia|lia| |].
    - unfold frames. destruct (r + 1 =? 9) eqn:Er1; [lia|].
      apply Z.eqb_neq in Er1. lia.
    - apply (fills_from_weaken (9 * r + c)); [lia|done]. }
  apply Z.eqb_neq in Ec.
  assert (frames r (c + 1) ≤ fuel)%nat as Hf'.
  { unfold frames. rewrite (proj2 (Z.eqb_neq r 9) Er). lia. }
  assert (in_range r c) as Hrc by (unfold in_range; lia).
  destruct (get b r c =? 0) eqn:E0; simpl negb; cbv iota.
  - apply Z.eqb_eq in E0.
    destruct (fills_from_isValid _ b s r c Hfill) as [Hd Hv]; [done|lia|].
    apply (try_digits_complete _ r c Hrc) with (k0 := get s r c); try done.
    + intros b1 b2 Hwf1. apply solveBoard_restores; done || lia.
    + intros k _ _.
      apply solveBoard_terminates; [by apply wf_set|lia|lia|done].
    + by apply in_digits.
    + apply (IH _ _ _ s); [by apply wf_set|lia|lia|done|].
      apply (fills_from_weaken (9 * r + c)); [lia|].
      by apply fills_from_set.
  - apply (IH _ _ _ s); [done|lia|lia|done|].
    apply (fills_from_weaken (9 * r + c)); [lia|done].
Qed.

Lemma solveBoardEfficient_complete_gen (fuel : nat) :
  ∀ b s, wf b → (count_empty b < fuel)%nat → fills_from 0 b s →
    ∃ b', solveBoardEfficient fuel b = Some (true, b').
Proof.
  induction fuel as [|fuel IH]; intros b s Hwf Hf Hfill; [lia|].
  rewrite solveBoardEfficient_S.
  destruct (findNextCell b) as [[rw cl] n] eqn:Ef.
  destruct ((rw =? -1) && (cl =? -1)) eqn:Es; [eauto|].
  pose proof (findNextCell_empty _ _ _ _ Ef Es) as He.
  destruct (fills_from_isValid 0 b s rw cl Hfill He) as [Hd Hv].
  { destruct He as [[? ?] _]. lia. }
  assert (∀ k, 1 ≤ k ≤ 9 → (count_empty (set b rw cl k) < fuel)%nat) as Hlt.
  { intros k Hk. pose proof (count_empty_set b rw cl k Hwf He). lia. }
  apply (try_digits_complete _ rw cl (proj1 He)) with (k0 := get s rw cl);
    try done || apply He.
  - apply solveBoardEfficient_restores.
  - intros k Hk _. apply in_digits in Hk.
    apply solveBoardEfficient_terminates; [by apply wf_set|auto].
  - by apply in_digits.
  - apply (IH _ s); [by apply wf_set|auto|].
    apply fills_from_set; [done..|apply He].
Qed.

(** A successful result is a clean fill of the input. *)
Lemma placed_full_fills (b s : Board) :
  placed_ok b s → full s → fills_from 0 b s.
Proof.
  intros (Hwf & Hk & Hc) Hfull. do 2 (split; [done|]).
  intros i j Hij _ Hz. apply Hc; [done..|by apply Hfull].
Qed.

Lemma fills_from_full (b s : Board) : fills_from 0 b s → full s.
Proof.
  intros (Hwf & Hk & Hc) i j Hij.
  destruct (decide (get b i j = 0)) as [Hz|Hnz].
  - destruct (Hc i j Hij) as [Hd _]; [unfold in_range in Hij; lia|done|lia].
  - by rewrite (Hk i j Hij Hnz).
Qed.

Lemma keeps_givensb_spec (b b' : Board) :
  keeps_givensb b b' = true → keeps_givens b b'.
Proof.
  unfold keeps_givensb. rewrite forallb_cells. intros H i j Hij Hnz.
  specialize (H i j Hij). apply orb_true_iff in H as [H|H]; lia.
Qed.

Lemma completion_fills (b s : Board) : completion b s → fills_from 0 b s.
Proof.
  intros (Hwf & Hs & Hk). do 2 (split; [done|]).
  intros i j Hij _ _. split; [by apply solved_digit|].
  intros i' j' Hij' Hne Hp Heq.
  pose proof (solved_digit s i j Hs Hij).
  apply (solved_no_conflict s Hs i j i' j'); try done; try congruence; lia.
Qed.

(** X1.  For every 9x9 grid, whatever its given cells hold (they may even
    clash): if [solveBoard(grid, 0, 0)] or [solveBoardEfficient(grid)]
    returns [true], the resulting grid has no empty cell, every given cell
    holds its original value, and every cell that was empty holds a digit
    1-9 that no other cell of its row, column or block holds. *)
Theorem solvers_fill_cleanly (fuel : nat) (b b' : Board) :
  wf b →
  solveBoard fuel b 0 0 = Some (true, b') ∨
  solveBoardEfficient fuel b = Some (true, b') →
  wf b' ∧ full b' ∧ keeps_givens b b' ∧
  ∀ i j, in_range i j → get b i j = 0 → clean_cell b' i j.
Proof.
  intros Hwf H.
  assert (placed_ok b b' ∧ full b') as [Hp Hfull].
  { destruct H as [H|H].
    - apply solveBoard_true_gen in H as (Hp & Hfull & _); [|done|lia|lia].
      split; [done|]. intros i j Hij. apply Hfull; [done|].
      unfold in_range in Hij. lia.
    - by apply solveBoardEfficient_true_gen in H. }
  destruct Hp as (Hwf' & Hk & Hc). do 3 (split; [done|]).
  intros i j Hij Hz. apply Hc; [done..|by apply Hfull].
Qed.

Lemma solvers_fill_cleanly_witness :
  full repeated_board ∧ keeps_givens clash_board repeated_board ∧
  clean_cell repeated_board 8 8.
Proof.
  destruct (solvers_fill_cleanly 91 clash_board repeated_board)
    as (_ & Hf & Hk & Hc).
  - by apply wfb_spec.
  - left. by vm_compute.
  - split; [done|]. split; [done|].
    apply Hc; [unfold in_range; lia|reflexivity].
Defined.

(** X2.  On every 9x9 grid the two strategies return the same verdict:
    [solveBoard(grid, 0, 0)] returns [true] exactly when
    [solveBoardEfficient(grid)] does, namely exactly when the empty cells
    can be filled with digits 1-9 so that no filled-in cell repeats a value
    of its row, column or block. *)
Theorem solvers_agree (b : Board) :
  wf b →
  ∃ res b1 b2,
    solveBoard 91 b 0 0 = Some (res, b1) ∧
    solveBoardEfficient 82 b = Some (res, b2) ∧
    (res = true ↔ ∃ s, fills_from 0 b s).
Proof.
  intros Hwf.
  assert (count_empty b < 82)%nat as Hce
    by (pose proof (count_empty_le b Hwf); lia).
  destruct (solveBoard_terminates 91 b 0 0) as [[res1 b1] H1];
    [done|lia|lia|by vm_compute|].
  destruct (solveBoardEfficient_terminates 82 b Hwf Hce) as [[res2 b2] H2].
  assert (res1 = true → ∃ s, fills_from 0 b s) as Hs1.
  { intros ->. exists b1.
    apply solveBoard_true_gen in H1 as (Hp & Hfull & _); [|done|lia|lia].
    apply placed_full_fills; [done|]. intros i j Hij. apply Hfull; [done|].
    unfold in_range in Hij. lia. }
  assert (res2 = true → ∃ s, fills_from 0 b s) as Hs2.
  { intros ->. exists b2.
    apply solveBoardEfficient_true_gen in H2 as (Hp & Hfull); [|done].
    by apply placed_full_fills. }
  assert ((∃ s, fills_from 0 b s) → res1 = true ∧ res2 = true) as Hc.
  { intros [s Hfill]. split.
    - destruct (solveBoard_complete_gen 91 b 0 0 s) as [b' Hb'];
        [done|lia|lia|by vm_compute|done|]. congruence.
    - destruct (solveBoardEfficient_complete_gen 82 b s Hwf Hce Hfill)
        as [b' Hb']. congruence. }
  exists res1, b1, b2. split; [done|].
  assert (res2 = res1) as ->.
  { destruct res1, res2; try done.
    - by destruct Hc as [_ ?]; [apply Hs1|].
    - by destruct Hc as [? _]; [apply Hs2|]. }
  split; [done|]. split; [done|]. intros Hex. by destruct (Hc Hex).
Qed.

Lemma solvers_agree_witness :
  ∃ res b1 b2,
    solveBoard 91 clash_board 0 0 = Some (res, b1) ∧
    solveBoardEfficient 82 clash_board = Some (res, b2) ∧
    (res = true ↔ ∃ s, fills_from 0 clash_board s).
Proof. apply (solvers_agree clash_board). by apply wfb_spec. Defined.

(** X3.  On a 9x9 grid with values 0-9 whose given cells do not clash,
    [solve], with either strategy, decides solvability: it returns [true]
    exactly when the grid has a valid completion, and it returns [false]
    (with the grid as it was) exactly when it has none. *)
Theorem solve_decides_solvability (fuel : nat) (b : Board) (efficient : bool) :
  (91 ≤ fuel)%nat → wf b → values_ok b → no_conflict b →
  ((∃ b', solve fuel b efficient = Some (true, b')) ↔ solvable b) ∧
  (solve fuel b efficient = Some (false, b) ↔ ¬ solvable b).
Proof.
  intros Hfuel Hwf Hval Hnc. assert (good b) as Hg by done.
  assert (count_empty b < fuel)%nat as Hce
    by (pose proof (count_empty_le b Hwf); lia).
  assert (frames 0 0 ≤ fuel)%nat as Hfr
    by (change (frames 0 0) with 91%nat; lia).
  assert (is_Some (solve fuel b efficient)) as [[res b1] Hres].
  { destruct efficient; unfold solve.
    - by apply solveBoardEfficient_terminates.
    - apply solveBoard_terminates; [done|lia|lia|done]. }
  assert (∀ b', solve fuel b efficient = Some (true, b') → solvable b)
    as Hsound.
  { intros b' H. exists b'. destruct efficient; unfold solve in H.
    - apply solveBoardEfficient_true in H as (Hg' & Hk & Hfull); [|done].
      split; [apply Hg'|]. split; [by apply good_full_solved|done].
    - apply solveBoard_true in H as (Hg' & Hk & Hfull); [|done|lia|lia].
      split; [apply Hg'|]. split; [|done].
      apply good_full_solved; [done|]. intros i j Hij.
      apply Hfull; [done|]. unfold in_range in Hij. lia. }
  assert (solvable b → ∃ b', solve fuel b efficient = Some (true, b'))
    as Hcomp.
  { intros [s Hs]. destruct efficient; unfold solve.
    - by apply (solveBoardEfficient_complete fuel b s).
    - apply (solveBoard_complete fuel b 0 0 s); [done|lia|lia|done|done]. }
  split; [split; [intros [b' H]; eauto|done]|]. split.
  - intros H [s Hs]. destruct (Hcomp (ex_intro _ s Hs)) as [b' Hb'].
    congruence.
  - intros Hno. destruct res; [destruct Hno; eauto|].
    rewrite Hres. do 2 f_equal.
    destruct efficient; unfold solve in Hres.
    + by apply solveBoardEfficient_restores in Hres.
    + by apply solveBoard_restores in Hres; [|done|lia|lia].
Qed.

Lemma solve_decides_solvability_witness :
  solvable puzzle ∧ ¬ solvable stuck_board.
Proof.
  split.
  - apply (solve_decides_solvability 91 puzzle false).
    + lia.
    + by apply wfb_spec.
    + by apply values_okb_spec.
    + by apply no_conflictb_spec.
    + exists solved_board. by vm_compute.
  - apply (solve_decides_solvability 91 stuck_board true).
    + lia.
    + by apply wfb_spec.
    + by apply values_okb_spec.
    + by apply no_conflictb_spec.
    + by vm_compute.
Defined.

(** ** More about isValid *)

(** X4.  [isValid] never accepts the value a cell already holds: for every
    cell [(r, c)] of the grid, [isValid(grid, r, c, grid[r][c])] is [false],
    because the row loop compares the digit with the cell itself.  So
    [isValid] cannot be used to re-check the digits of a filled grid. *)
Theorem isValid_rejects_own_value (b : Board) (r c : Z) :
  0 ≤ r < 9 → 0 ≤ c < 9 → isValid b r c (get b r c) = false.
Proof.
  intros Hr Hc. apply isValid_false_iff. left. exists c. auto.
Qed.

Lemma isValid_rejects_own_value_witness : isValid solved_board 4 4 5 = false.
Proof. apply (isValid_rejects_own_value solved_board 4 4); lia. Defined.

(** X5.  A digit other than 0 that [isValid] rejects stays rejected when
    more cells are filled: if every filled cell of [b] holds the same value
    in [b'], then [isValid b r c k = false] implies
    [isValid b' r c k = false].  This is what makes skipping a rejected
    digit safe for the rest of the search. *)
Theorem isValid_stays_rejected (b b' : Board) (r c k : Z) :
  0 ≤ r < 9 → 0 ≤ c < 9 → keeps_givens b b' → k ≠ 0 →
  isValid b r c k = false → isValid b' r c k = false.
Proof.
  intros Hr Hc Hk Hk0 Hv.
  destruct (isValid b' r c k) eqn:Hv'; [|done].
  rewrite isValid_true_iff in Hv' by done.
  assert (isValid b r c k = true) as Ht; [|congruence].
  apply isValid_true_iff; [done|]. intros i j Hij Hp Heq.
  apply (Hv' i j Hij Hp). rewrite <- Heq. apply Hk; [done|lia].
Qed.

Lemma isValid_stays_rejected_witness : isValid solved_board 0 2 5 = false.
Proof.
  apply (isValid_stays_rejected puzzle solved_board 0 2 5); try lia.
  - by apply keeps_givensb_spec.
  - reflexivity.
Defined.

(** X6.  [isValid] looks only at the row, the column and the block of the
    queried cell: writing any value into a cell that shares none of them
    with [(r, c)] does not change [isValid(grid, r, c, k)]. *)
Theorem isValid_ignores_other_cells (b : Board) (r c k i j v : Z) :
  wf b → in_range r c → in_range i j → ¬ peer r c i j →
  isValid (set b i j v) r c k = isValid b r c k.
Proof.
  intros Hwf Hrc Hij Hnp.
  assert (∀ b1 b2 : Board,
            (∀ i' j', in_range i' j' → peer r c i' j' →
                      get b1 i' j' = get b2 i' j') →
            isValid b1 r c k = true → isValid b2 r c k = true) as Hmono.
  { intros b1 b2 Heq Hv. rewrite isValid_true_iff in * by done.
    intros i' j' Hij' Hp. rewrite <- Heq by done. by apply Hv. }
  assert (∀ i' j', in_range i' j' → peer r c i' j' →
                   get (set b i j v) i' j' = get b i' j') as Hsame.
  { intros i' j' Hij' Hp. rewrite get_set by done.
    destruct (decide _) as [[= -> ->]|]; done. }
  destruct (isValid b r c k) eqn:E.
  - apply (Hmono b); [|done]. intros. symmetry. by apply Hsame.
  - destruct (isValid (set b i j v) r c k) eqn:E'; [|done].
    rewrite <- E. symmetry. by apply (Hmono (set b i j v)).
Qed.

Lemma isValid_ignores_other_cells_witness :
  isValid (set puzzle 4 4 7) 0 2 7 = isValid puzzle 0 2 7.
Proof.
  apply isValid_ignores_other_cells.
  - by apply wfb_spec.
  - unfold in_range; lia.
  - unfold in_range; lia.
  - intros [H|[H|[H _]]]; discriminate H.
Defined.

(** ** More about findNextCell *)

Lemma legal_count_1_8_range (b : Board) (r c : Z) :
  0 ≤ legal_count_1_8 b r c ≤ 8.
Proof.
  unfold legal_count_1_8.
  pose proof (length_filter (λ k, isValid b r c k = true) (seqZ 1 8)) as H.
  rewrite length_seqZ in H. lia.
Qed.

(** X7.  [findNextCell] returns the sentinel [(-1, -1, 0)] exactly when the
    grid has no empty cell; otherwise it returns the coordinates, both in
    0-8, of an empty cell, with an option count between 0 and 8. *)
Theorem findNextCell_result (b : Board) (r c n : Z) :
  findNextCell b = (r, c, n) →
  (findNextCell b = (-1, -1, 0) ↔ full b) ∧
  ((r = -1 ∧ c = -1 ∧ n = 0 ∧ full b) ∨
   (0 ≤ r < 9 ∧ 0 ≤ c < 9 ∧ get b r c = 0 ∧ 0 ≤ n ≤ 8)).
Proof.
  intros Hf. split.
  - split; [|apply findNextCell_full].
    intros Hs. apply findNextCell_spec in Hs as [(? & _)|([[? ?] _] & _)];
      [done|lia].
  - apply findNextCell_spec in Hf as [(? & ? & ? & ?)|(He & -> & _)];
      [by left|right].
    rewrite (countOptions_empty b r c He).
    destruct He as [[? ?] ?]. pose proof (legal_count_1_8_range b r c).
    done.
Qed.

Lemma findNextCell_result_witness :
  findNextCell empty_board = (0, 0, 8) ∧ ¬ full empty_board.
Proof.
  destruct (findNextCell_result empty_board 0 0 8) as [Hs _]; [reflexivity|].
  split; [reflexivity|]. intros Hfull. apply Hs in Hfull. vm_compute in Hfull. discriminate Hfull.
Defined.

(** X8.  Ties are broken by scan order: when [findNextCell] returns a cell
    [(r, c)] with option count [n], every empty cell that comes before
    [(r, c)] in row-major order has a strictly larger option count; and
    unless [n] is 1 (the early exit), no empty cell of the grid has a
    smaller one. *)
Theorem findNextCell_first_minimal (b : Board) (r c n : Z) :
  findNextCell b = (r, c, n) → 0 ≤ r < 9 → 0 ≤ c < 9 →
  n = countOptions b r c ∧
  (∀ i j, empty_cell b i j → 9 * i + j < 9 * r + c →
          n < countOptions b i j) ∧
  (n = 1 ∨ ∀ i j, empty_cell b i j → n ≤ countOptions b i j).
Proof.
  intros Hf Hr Hc. split; [|split].
  - apply findNextCell_spec in Hf as [(_ & -> & _)|(_ & -> & _)]; [lia|done].
  - by apply findNextCell_first.
  - apply findNextCell_spec in Hf as [(_ & -> & _)|(_ & _ & Hmin)]; [lia|done].
Qed.

Lemma findNextCell_first_minimal_witness :
  findNextCell puzzle = (4, 4, 1) ∧
  (∀ i j, empty_cell puzzle i j → 9 * i + j < 9 * 4 + 4 →
          1 < countOptions puzzle i j).
Proof.
  destruct (findNextCell_first_minimal puzzle 4 4 1) as (_ & H & _);
    [reflexivity|lia|lia|].
  split; [reflexivity|exact H].
Defined.

(** ** Running the solvers again, and from another cursor *)

(** X9.  Solving is idempotent: when [solveBoard(grid, 0, 0)] or
    [solveBoardEfficient(grid)] has returned [true], running either solver
    on the grid it left returns [true] again and changes nothing. *)
Theorem solving_again_changes_nothing (fuel : nat) (b b' : Board) :
  wf b →
  solveBoard fuel b 0 0 = Some (true, b') ∨
  solveBoardEfficient fuel b = Some (true, b') →
  (∀ fuel', (91 ≤ fuel')%nat → solveBoard fuel' b' 0 0 = Some (true, b')) ∧
  (∀ fuel', (1 ≤ fuel')%nat → solveBoardEfficient fuel' b' = Some (true, b')).
Proof.
  intros Hwf H.
  assert (full b') as Hfull.
  { destruct H as [H|H].
    - apply solveBoard_true_gen in H as (_ & Hfull & _); [|done|lia|lia].
      intros i j Hij. apply Hfull; [done|]. unfold in_range in Hij. lia.
    - by apply solveBoardEfficient_true_gen in H as [_ ?]. }
  split.
  - intros fuel' Hf. apply solveBoard_full; [lia|lia| |].
    + change (frames 0 0) with 91%nat. lia.
    + intros i j Hij _. by apply Hfull.
  - intros [|fuel'] Hf; [lia|]. by apply solveBoardEfficient_full.
Qed.

Lemma solving_again_changes_nothing_witness :
  solveBoard 91 solved_board 0 0 = Some (true, solved_board) ∧
  solveBoardEfficient 1 solved_board = Some (true, solved_board).
Proof.
  destruct (solving_again_changes_nothing 91 puzzle solved_board)
    as [H1 H2].
  - by apply wfb_spec.
  - left. by vm_compute.
  - split; [apply H1|apply H2]; lia.
Defined.

(** X10.  [solveBoard(grid, r, c)] started at any cursor with [r] and [c]
    in 0-9 returns within [frames r c] nested activations, never changes a
    cell before the cursor in row-major order (not even an empty one) and
    never changes a given cell; when it returns [true] every cell from the
    cursor on is filled, and when it returns [false] the grid is as it
    was.  So a [true] from a cursor other than (0,0) does not mean that
    the whole grid is filled. *)
Theorem solveBoard_from_cursor (fuel : nat) (b : Board) (r c : Z) :
  wf b → 0 ≤ r ≤ 9 → 0 ≤ c ≤ 9 → (frames r c ≤ fuel)%nat →
  ∃ res b',
    solveBoard fuel b r c = Some (res, b') ∧
    (∀ i j, in_range i j → 9 * i + j < 9 * r + c → get b' i j = get b i j) ∧
    keeps_givens b b' ∧
    (res = true →
     ∀ i j, in_range i j → 9 * r + c ≤ 9 * i + j → get b' i j ≠ 0) ∧
    (res = false → b' = b).
Proof.
  intros Hwf Hr Hc Hf.
  destruct (solveBoard_terminates fuel b r c Hwf Hr Hc Hf) as [[res b'] H].
  exists res, b'. split; [done|]. destruct res.
  - apply solveBoard_true_gen in H as ((_ & Hk & _) & Hfull & Hsame);
      [|done..].
    split; [done|]. split; [done|]. split; [done|]. done.
  - apply solveBoard_restores in H as ->; [|done..].
    split; [done|]. split; [apply keeps_givens_refl|]. done.
Qed.

Lemma solveBoard_from_cursor_witness :
  ∃ res b',
    solveBoard 90 corner_missing 0 1 = Some (res, b') ∧
    (∀ i j, in_range i j → 9 * i + j < 9 * 0 + 1 →
            get b' i j = get corner_missing i j) ∧
    keeps_givens corner_missing b' ∧
    (res = true →
     ∀ i j, in_range i j → 9 * 0 + 1 ≤ 9 * i + j → get b' i j ≠ 0) ∧
    (res = false → b' = corner_missing).
Proof.
  apply (solveBoard_from_cursor 90 corner_missing 0 1).
  - exact corner_missing_wf.
  - lia.
  - lia.
  - by vm_compute.
Defined.

(** Started behind the empty corner, [solveBoard] reports success and
    leaves the corner empty. *)
Example solveBoard_skips_cells_before_cursor :
  solveBoard 90 corner_missing 0 1 = Some (true, corner_missing) ∧
  get corner_missing 0 0 = 0.
Proof. split; by vm_compute. Qed.

(** ** The row-major solver finds the first solution *)

Section TryDigitsLeast.
Variable rec : Board → option (bool * Board).
Variables r c : Z.
Hypothesis Hrc : in_range r c.
Hypothesis rec_restores :
  ∀ b1 b2, wf b1 → rec b1 = Some (false, b2) → b2 = b1.

(** The digit the loop succeeds with is the least one of the range whose
    recursive call succeeds: the accepted digits below it all failed. *)
Lemma try_digits_least (n : nat) :
  ∀ lo b b', wf b → get b r c = 0 →
    try_digits rec r c (seqZ lo (Z.of_nat n)) b = Some (true, b') →
    ∃ k, lo ≤ k < lo + Z.of_nat n ∧ isValid b r c k = true ∧
         rec (set b r c k) = Some (true, b') ∧
         ∀ k', lo ≤ k' < k → isValid b r c k' = true →
               rec (set b r c k') = Some (false, set b r c k').
Proof.
  induction n as [|n IH]; intros lo b b' Hwf H0; [done|].
  rewrite seqZ_cons by lia. cbn [try_digits].
  replace (Z.pred (Z.of_nat (S n))) with (Z.of_nat n) by lia.
  destruct (isValid b r c lo) eqn:Ek.
  - destruct (rec (set b r c lo)) as [[[] b2]|] eqn:E; [| |done].
    + intros [= <-]. exists lo. split; [lia|]. do 2 (split; [done|]).
      intros k' Hk'. lia.
    + assert (b2 = set b r c lo) as ->
        by (apply rec_restores; auto using wf_set).
      rewrite set_undo by done. intros H.
      destruct (IH _ _ _ Hwf H0 H) as (k & Hk & Hv & Hr & Hless).
      exists k. split; [lia|]. do 2 (split; [done|]).
      intros k' Hk' Hv'. destruct (decide (k' = lo)) as [->|]; [done|].
      apply Hless; [lia|done].
  - intros H. destruct (IH _ _ _ Hwf H0 H) as (k & Hk & Hv & Hr & Hless).
    exists k. split; [lia|]. do 2 (split; [done|]).
    intros k' Hk' Hv'. destruct (decide (k' = lo)) as [->|]; [congruence|].
    apply Hless; [lia|done].
Qed.
End TryDigitsLeast.

Lemma solveBoard_least (fuel : nat) :
  ∀ b r c b' s, wf b → 0 ≤ r ≤ 9 → 0 ≤ c ≤ 9 →
    solveBoard fuel b r c = Some (true, b') →
    fills_from (9 * r + c) b s →
    (∀ i j, in_range i j → 9 * i + j < 9 * r + c → get s i j = get b i j) →
    lex_le b' s.
Proof.
  induction fuel as [|fuel IH]; intros b r c b' s Hwf Hr Hc; [done|].
  rewrite solveBoard_S.
  destruct (r =? 9) eqn:Er.
  { apply Z.eqb_eq in Er. intros [= <-] _ Hsame. left.
    intros i j Hij. symmetry. apply Hsame; [done|].
    unfold in_range in Hij. lia. }
  apply Z.eqb_neq in Er.
  destruct (c =? 9) eqn:Ec.
  { apply Z.eqb_eq in Ec. intros H Hfill Hsame.
    apply (IH _ _ _ _ s) in H; [done|done|lia|lia| |].
    - apply (fills_from_weaken (9 * r + c)); [lia|done].
    - intros i j Hij Hlt. apply Hsame; [done|lia]. }
  apply Z.eqb_neq in Ec.
  assert (in_range r c) as Hrc by (unfold in_range; lia).
  assert (∀ i j, in_range i j → 9 * i + j < 9 * r + (c + 1) →
                 9 * i + j < 9 * r + c ∨ (i, j) = (r, c)) as Hpos.
  { unfold in_range. intros i j Hij Hlt.
    destruct (decide (9 * i + j < 9 * r + c)); [by left|right].
    f_equal; lia. }
  destruct (get b r c =? 0) eqn:E0; simpl negb; cbv iota.
  - apply Z.eqb_eq in E0. intros H Hfill Hsame.
    destruct (fills_from_isValid _ b s r c Hfill) as [Hd Hv]; [done|lia|].
    change digits with (seqZ 1 (Z.of_nat 9)) in H.
    apply try_digits_least in H as (k & Hk & Hvk & Hrec & Hless); try done.
    2:{ intros b1 b2 Hwf1. apply solveBoard_restores; done || lia. }
    pose proof Hrec as Hres.
    apply solveBoard_true_gen in Hres as ((_ & Hkeep & _) & _ & Hfr);
      [|by apply wf_set|lia|lia].
    assert (get b' r c = k) as Hbk.
    { rewrite (Hkeep r c Hrc); rewrite get_set_eq; done || lia. }
    assert (∀ i j, in_range i j → 9 * i + j < 9 * r + c →
                   get b' i j = get s i j) as Hbefore.
    { intros i j Hij Hlt. rewrite Hfr by (done || lia).
      rewrite get_set_ne; try (unfold in_range in *; lia).
      - symmetry. by apply Hsame.
      - intros [= -> ->]. lia. }
    destruct (Z.lt_trichotomy (get s r c) k) as [Hlt|[Heq|Hgt]].
    + (* a smaller digit would have been found first *)
      specialize (Hless (get s r c) ltac:(lia) Hv).
      destruct (solveBoard_complete_gen (max fuel 91)
                  (set b r c (get s r c)) r (c + 1) s) as [b2 Hb2].
      * by apply wf_set.
      * lia.
      * lia.
      * assert (frames r (c + 1) ≤ 91)%nat; [|lia].
        unfold frames. rewrite (proj2 (Z.eqb_neq r 9) Er). lia.
      * apply (fills_from_weaken (9 * r + c)); [lia|].
        by apply fills_from_set.
      * apply (solveBoard_mono fuel (max fuel 91)) in Hless; [|lia].
        congruence.
    + apply (IH _ _ _ _ s) in Hrec; [done|by apply wf_set|lia|lia| |].
      * apply (fills_from_weaken (9 * r + c)); [lia|].
        rewrite <- Heq. by apply fills_from_set.
      * intros i j Hij Hlt. rewrite get_set by done.
        destruct (decide _) as [[= -> ->]|Hne]; [done|].
        destruct (Hpos i j Hij Hlt) as [?|?]; [by apply Hsame|done].
    + right. exists r, c. split; [done|]. split; [lia|done].
  - apply Z.eqb_neq in E0. intros H Hfill Hsame.
    apply (IH _ _ _ _ s) in H; [done|done|lia|lia| |].
    + apply (fills_from_weaken (9 * r + c)); [lia|done].
    + intros i j Hij Hlt.
      destruct (Hpos i j Hij Hlt) as [?|[= -> ->]]; [by apply Hsame|].
      destruct Hfill as (_ & Hk & _). by apply Hk.
Qed.

(** X11.  [solveBoard(grid, 0, 0)] returns the first solution in row-major
    order: when it returns [true], the grid it leaves is, read row by row,
    lexicographically less than or equal to every valid completion of the
    input (at the first cell where they differ it holds the smaller
    digit). *)
Theorem solveBoard_first_solution (fuel : nat) (b b' s : Board) :
  wf b → solveBoard fuel b 0 0 = Some (true, b') → completion b s →
  lex_le b' s.
Proof.
  intros Hwf H Hs.
  apply (solveBoard_least fuel b 0 0 b' s); [done|lia|lia|done| |].
  - by apply completion_fills.
  - unfold in_range. intros; lia.
Qed.

Lemma solveBoard_first_solution_witness :
  ∃ b', solveBoard 91 empty_board 0 0 = Some (true, b') ∧
        get b' 0 0 = 1 ∧ lex_le b' solved_board.
Proof.
  destruct (solveBoard 91 empty_board 0 0) as [[[] b']|] eqn:E;
    [|by vm_compute in E..].
  exists b'. split; [done|]. split.
  - vm_compute in E. by injection E as <-.
  - apply (solveBoard_first_solution 91 empty_board b' solved_board).
    + by apply wfb_spec.
    + done.
    + split; [by apply wfb_spec|]. split; [by apply solvedb_spec|].
      by apply keeps_givensb_spec.
Defined.

(** ** Edge cases *)

(** X12.  The option count of [findNextCell] is exact unless 9 is legal:
    at every empty cell the count computed by the options loop is the
    number of legal digits among 1-9 when [isValid] rejects 9 there, and
    one less than that number when [isValid] accepts 9. *)
Theorem countOptions_off_by_nine (b : Board) (r c : Z) :
  0 ≤ r < 9 → 0 ≤ c < 9 → get b r c = 0 →
  countOptions b r c =
  legal_count b r c - (if isValid b r c 9 then 1 else 0).
Proof.
  intros Hr Hc H0. assert (empty_cell b r c) as He by done.
  rewrite legal_count_split, (countOptions_empty b r c He). lia.
Qed.

Lemma countOptions_off_by_nine_witness :
  countOptions empty_board 0 0 = 8 ∧ legal_count empty_board 0 0 = 9.
Proof.
  pose proof (countOptions_off_by_nine empty_board 0 0
                ltac:(lia) ltac:(lia) eq_refl) as H.
  split; [|reflexivity]. rewrite H. reflexivity.
Defined.

(** X13.  [isValid] does not check the range of the digit: on a grid with
    values 0-9 every [k] below 0 or above 9 is accepted at every cell. *)
Theorem isValid_accepts_out_of_range_digit (b : Board) (r c k : Z) :
  values_ok b → 0 ≤ r < 9 → 0 ≤ c < 9 → k < 0 ∨ 9 < k →
  isValid b r c k = true.
Proof.
  intros Hval Hr Hc Hk. apply isValid_true_iff; [done|].
  intros i j Hij _ Heq. specialize (Hval i j Hij). lia.
Qed.

Lemma isValid_accepts_out_of_range_digit_witness :
  isValid solved_board 0 0 10 = true.
Proof.
  apply isValid_accepts_out_of_range_digit; try lia.
  by apply values_okb_spec.
Defined.

(** X14.  Dead cells are detected: if some empty cell of a 9x9 grid accepts
    none of the digits 1-9, both solvers return [false] and leave the grid
    as it was. *)
Theorem dead_cell_fails (b : Board) (r c : Z) :
  wf b → 0 ≤ r < 9 → 0 ≤ c < 9 → get b r c = 0 →
  (∀ k, 1 ≤ k ≤ 9 → isValid b r c k = false) →
  solveBoard 91 b 0 0 = Some (false, b) ∧
  solveBoardEfficient 82 b = Some (false, b).
Proof.
  intros Hwf Hr Hc H0 Hdead.
  assert (empty_cell b r c) as He by done.
  assert (∀ s, ¬ fills_from 0 b s) as Hno.
  { intros s Hfill.
    destruct (fills_from_isValid 0 b s r c Hfill He) as [Hd Hv]; [lia|].
    rewrite (Hdead _ Hd) in Hv. done. }
  assert (count_empty b < 82)%nat as Hce
    by (pose proof (count_empty_le b Hwf); lia).
  destruct (solveBoard_terminates 91 b 0 0) as [[res1 b1] H1];
    [done|lia|lia|by vm_compute|].
  destruct (solveBoardEfficient_terminates 82 b Hwf Hce) as [[res2 b2] H2].
  split.
  - destruct res1.
    + apply solveBoard_true_gen in H1 as (Hp & Hfull & _); [|done|lia|lia].
      destruct (Hno b1). apply placed_full_fills; [done|].
      intros i j Hij. apply Hfull; [done|]. unfold in_range in Hij. lia.
    + rewrite H1. do 2 f_equal.
      by apply solveBoard_restores in H1; [|done|lia|lia].
  - destruct res2.
    + apply solveBoardEfficient_true_gen in H2 as (Hp & Hfull); [|done].
      destruct (Hno b2). by apply placed_full_fills.
    + rewrite H2. do 2 f_equal.
      by apply solveBoardEfficient_restores in H2.
Qed.

Lemma stuck_board_dead (k : Z) :
  1 ≤ k ≤ 9 → isValid stuck_board 0 0 k = false.
Proof.
  intros Hk.
  assert (k = 1 ∨ k = 2 ∨ k = 3 ∨ k = 4 ∨ k = 5 ∨ k = 6 ∨ k = 7 ∨ k = 8 ∨
          k = 9) as H by lia.
  repeat destruct H as [->|H]; try subst k; reflexivity.
Qed.

Lemma dead_cell_fails_witness :
  solveBoard 91 stuck_board 0 0 = Some (false, stuck_board) ∧
  solveBoardEfficient 82 stuck_board = Some (false, stuck_board).
Proof.
  apply (dead_cell_fails stuck_board 0 0).
  - by apply wfb_spec.
  - lia.
  - lia.
  - reflexivity.
  - exact stuck_board_dead.
Defined.
